(** * Ceres6 cheat-sheet search: text normalisation, row scoring and ranking

    A shallow embedding of [Ceres6SearchApp.py] (the text utilities, [score_row],
    the module-level ranking block and the page the script builds around it)
    together with the properties of the design document that concern them and
    further properties read off the code.

    Conventions of the embedding.
    - A Python [str] is a [string]; each character is read as the code point
      of the same number (U+0000 .. U+00FF).  [str.lower], [str.strip],
      [str.split] and the regular-expression class [\s] follow CPython's
      behaviour on these code points.
    - A value that may be [None] is an [option string].
    - A Python [set] of strings is a [gset string]; a [dict] is a [gmap].
    - Python integers are [Z]. *)

From Stdlib Require Import ZArith Ascii String List Sorted Permutation Lia.
From stdpp Require Import gmap strings list fin_maps sorting pretty.

Local Open Scope Z_scope.

(** ** Characters *)

Module Char.

Definition code (c : ascii) : N := N_of_ascii c.

Definition in_range (lo hi : N) (c : ascii) : bool :=
  ((lo <=? code c) && (code c <=? hi))%N.

(** The class [a-z]. *)
Definition is_az (c : ascii) : bool := in_range 97 122 c.

(** The class [0-9]. *)
Definition is_09 (c : ascii) : bool := in_range 48 57 c.

(** [str.isspace] on one character, which is also the class [\s] of [re] on
    [str] patterns: TAB..CR, FS..US, space, NEL and NBSP. *)
Definition isspace (c : ascii) : bool :=
  in_range 9 13 c || in_range 28 32 c || (code c =? 133)%N || (code c =? 160)%N.

(** [str.lower] on one character: [A-Z] and the capital letters
    U+00C0 .. U+00DE (the multiplication sign U+00D7 apart) move up by 32. *)
Definition lower (c : ascii) : ascii :=
  if in_range 65 90 c || (in_range 192 222 c && negb (code c =? 215)%N)
  then ascii_of_N (code c + 32)
  else c.

End Char.

(** ** String primitives of the Python runtime *)

Module Str.

Fixpoint map (f : ascii → ascii) (s : string) : string :=
  match s with
  | "" => ""
  | String c s' => String (f c) (map f s')
  end.

Fixpoint all (p : ascii → bool) (s : string) : bool :=
  match s with
  | "" => true
  | String c s' => p c && all p s'
  end.

Definition is_empty (s : string) : bool :=
  match s with "" => true | String _ _ => false end.

(** [len(s)] *)
Definition len (s : string) : Z := Z.of_nat (String.length s).

(** [s.lower()] *)
Definition lower (s : string) : string := map Char.lower s.

(** [s.lstrip()] *)
Fixpoint lstrip (s : string) : string :=
  match s with
  | "" => ""
  | String c s' => if Char.isspace c then lstrip s' else s
  end.

(** [s.rstrip()] *)
Fixpoint rstrip (s : string) : string :=
  match s with
  | "" => ""
  | String c s' =>
      let r := rstrip s' in
      if Char.isspace c && is_empty r then "" else String c r
  end.

(** [s.strip()] *)
Definition strip (s : string) : string := rstrip (lstrip s).

(** [s.replace(a, b)] for one-character [a] and [b]. *)
Definition replace (a b : ascii) (s : string) : string :=
  map (λ c, if decide (c = a) then b else c) s.

(** [re.sub(r"\s+", " ", s)]: every maximal run of whitespace becomes one
    space.  [in_run] tells that the previous character was whitespace. *)
Fixpoint sub_ws (in_run : bool) (s : string) : string :=
  match s with
  | "" => ""
  | String c s' =>
      if Char.isspace c
      then (if in_run then sub_ws true s' else String " " (sub_ws true s'))
      else String c (sub_ws false s')
  end.

(** [s.split()]: the maximal runs of non-whitespace characters.  [cur] is
    the word being read. *)
Fixpoint split_go (cur : string) (s : string) : list string :=
  match s with
  | "" => if is_empty cur then [] else [cur]
  | String c s' =>
      if Char.isspace c
      then (if is_empty cur then split_go "" s' else cur :: split_go "" s')
      else split_go (cur +:+ String c "") s'
  end.
Definition split (s : string) : list string := split_go "" s.

(** [s.split(sep)] for a one-character separator: empty pieces are kept. *)
Fixpoint split_on (sep : ascii) (s : string) : list string :=
  match s with
  | "" => [""]
  | String c s' =>
      if decide (c = sep) then "" :: split_on sep s'
      else match split_on sep s' with
           | w :: ws => String c w :: ws
           | [] => [String c ""]
           end
  end.

Fixpoint startswith (p s : string) : bool :=
  match p, s with
  | "", _ => true
  | String a p', String b s' => bool_decide (a = b) && startswith p' s'
  | String _ _, "" => false
  end.

(** [needle in hay] *)
Fixpoint contains (needle hay : string) : bool :=
  startswith needle hay ||
  match hay with
  | "" => false
  | String _ hay' => contains needle hay'
  end.

(** [sep.join(l)] *)
Fixpoint join (sep : string) (l : list string) : string :=
  match l with
  | [] => ""
  | x :: l' =>
      match l' with
      | [] => x
      | _ :: _ => x +:+ sep +:+ join sep l'
      end
  end.

End Str.

(** ** Config *)

Definition STOPWORDS : gset string :=
  list_to_set
    ["where"; "can"; "i"; "find"; "the"; "a"; "an"; "of"; "to"; "for"; "in"; "on";
     "and"; "or"; "is"; "are"; "do"; "does"; "what"; "whats"; "please"; "me";
     "show"; "tell"].

(** The dictionary keeps its insertion order; each trigger set is only ever
    asked whether some member occurs in the query, so a list stands for it. *)
Definition ENTITY_HINTS : list (string * list string) :=
  [ ("agency",  ["agency"; "agencies"]);
    ("donors",  ["donor"; "donors"]);
    ("vendors", ["vendor"; "vendors"; "supplier"; "suppliers"]);
    ("items",   ["item"; "items"; "product"; "sku"]);
    ("ledger",  ["gl"; "g/l"; "ledger"; "general ledger"; "journal"]) ].

Definition COL_COMMON   : string := "Common".
Definition COL_KEYWORD  : string := "Keyword / Search Term".
Definition COL_REPORT   : string := "Database/Report Location".
Definition COL_FULLKEY  : string := "Full Information Key".
Definition COL_ENTITY   : string := "Entity Type".
Definition COL_CANON    : string := "Canonical Field".
Definition COL_SYNONYMS : string := "Synonyms / Ask Phrases".

(** ** Text utilities *)

(** [text or ""] *)
Definition or_empty (text : option string) : string := default "" text.

(** The class [[^a-z0-9\s,/-]] of the first substitution, negated: the
    characters that are kept. *)
Definition kept (c : ascii) : bool :=
  Char.is_az c || Char.is_09 c || Char.isspace c
  || bool_decide (c = ","%char) || bool_decide (c = "/"%char)
  || bool_decide (c = "-"%char).

Definition normalize (text : option string) : string :=
  let text := Str.strip (Str.lower (or_empty text)) in
  let text := Str.map (λ c, if kept c then c else " "%char) text in
  let text := Str.replace "-" " " (Str.replace "/" " " text) in
  let text := Str.strip (Str.sub_ws false text) in
  text.

Definition tokenize (text : option string) : gset string :=
  let t := normalize text in
  list_to_set
    (filter (λ w, 3 ≤ Str.len w ∧ w ∉ STOPWORDS) (Str.split t)).

Definition phrase_list (synonyms : option string) : list string :=
  let parts := [Str.split_on "," (or_empty synonyms)] in
  let raw := concat parts in
  let cleaned := (λ p, normalize (Some p)) <$> raw in
  filter (λ p, 3 ≤ Str.len p) cleaned.

(** ** Scoring *)

(** A row of the cheat sheet ([pd.Series]): column name to cell, each cell
    given by the text [str] makes of it. *)
Abbreviation row := (gmap string string) (only parsing).

(** [str(row.get(col, dflt))] *)
Definition row_get (r : row) (col dflt : string) : string :=
  default dflt (r !! col).

(** One turn of the loop over [phrase_list(synonyms)]. *)
Definition phrase_step (q_norm : string) (best_phrase : Z) (phr : string) : Z :=
  if negb (Str.is_empty phr) && Str.contains phr q_norm
  then Z.max best_phrase (8 + Str.len phr `div` 10)
  else best_phrase.

(** [any(w in q_norm for w in words)] *)
Definition any_in (q_norm : string) (words : list string) : bool :=
  existsb (λ w, Str.contains w q_norm) words.

(** The loop over [ENTITY_HINTS.items()], on the pair of the running
    [score] and [why]; it is left at the first group that fires. *)
Fixpoint entity_loop (hints : list (string * list string))
    (q_norm entity : string) (st : Z * gmap string Z) : Z * gmap string Z :=
  match hints with
  | [] => st
  | (ent, words) :: hints' =>
      if any_in q_norm words then
        if decide (ent = entity)
        then (st.1 + 4, <["entity_bonus" := 4]> st.2)
        else (st.1 - 1, st.2)
      else entity_loop hints' q_norm entity st
  end.

Definition score_row (q_norm : string) (q_tokens : gset string) (r : row)
    : Z * gmap string Z :=
  let common := normalize (Some (row_get r COL_COMMON "")) in
  let keyword := normalize (Some (row_get r COL_KEYWORD "")) in
  let report := normalize (Some (row_get r COL_REPORT "")) in
  let synonyms := row_get r COL_SYNONYMS "" in
  let entity := normalize (Some (row_get r COL_ENTITY "")) in
  let score := 0 in
  let why : gmap string Z :=
    <["syn_phrase_hit" := 0]> (<["token_overlap" := 0]> (<["entity_bonus" := 0]> ∅)) in
  (* 1) phrase hits in synonyms *)
  let best_phrase := foldl (phrase_step q_norm) 0 (phrase_list (Some synonyms)) in
  let score := score + best_phrase in
  let why := <["syn_phrase_hit" := best_phrase]> why in
  (* 2) token overlap with common/keyword/report *)
  let row_tokens := tokenize (Some common) ∪ tokenize (Some keyword) ∪ tokenize (Some report) in
  let overlap := Z.of_nat (size (q_tokens ∩ row_tokens)) in
  let tok_pts := Z.min 6 (overlap * 2) in
  let score := score + tok_pts in
  let why := <["token_overlap" := tok_pts]> why in
  (* 3) entity hint bonus *)
  entity_loop ENTITY_HINTS q_norm entity (score, why).

(** ** Ranking (the body of [if q:]) *)

(** An entry of [scored]: [(s, why, row)]. *)
Abbreviation entry := (Z * gmap string Z * gmap string string)%type (only parsing).

Definition score_of (x : entry) : Z := x.1.1.

(** The loop over [df.iterrows()] that fills [scored]. *)
Definition score_rows (q_norm : string) (q_tokens : gset string) (df : list row)
    : list entry :=
  foldl (λ scored r, let '(s, why) := score_row q_norm q_tokens r in
                     scored ++ [(s, why, r)]) [] df.

(** [list.sort(key=..., reverse=True)] is a stable sort, also in reverse:
    the entries come out by decreasing key, equal keys in the order they had.
    [insert_desc x l] puts [x], which stood before all of [l], after the
    entries of strictly greater key. *)
Fixpoint insert_desc {A} (key : A → Z) (x : A) (l : list A) : list A :=
  match l with
  | [] => [x]
  | y :: l' => if decide (key x < key y) then y :: insert_desc key x l'
               else x :: l
  end.

Definition sort_desc {A} (key : A → Z) (l : list A) : list A :=
  foldr (insert_desc key) [] l.

(** [l[:k]] for a Python integer [k]: a negative [k] counts from the end. *)
Definition slice_to {A} (l : list A) (k : Z) : list A :=
  if decide (k < 0) then take (Z.to_nat (Z.of_nat (length l) + k)) l
  else take (Z.to_nat k) l.

(** [scored] once sorted. *)
Definition scored (q : string) (df : list row) : list entry :=
  let q_norm := normalize (Some q) in
  let q_tokens := tokenize (Some q) in
  sort_desc score_of (score_rows q_norm q_tokens df).

(** What a block of the script ends in: a value, or a Python exception. *)
Inductive exn := IndexError | ValueError.

Inductive outcome (A : Type) :=
  | Returns (a : A)
  | Raises (e : exn).
Arguments Returns {A} a.
Arguments Raises {A} e.


(** [best = scored[:top_k]], the end of the block that the script runs for a
    non-empty question [q]: no statement up to here raises. *)
Definition rank (q : string) (df : list row) (top_k : Z) : outcome (list entry) :=
  Returns (slice_to (scored q df) top_k).

(** What the page shows of an entry: its score and [row[COL_COMMON]]. *)
Definition shown (x : entry) : Z * string := (score_of x, row_get x.2 COL_COMMON "").

Definition outcome_map {A B} (f : A → B) (o : outcome A) : outcome B :=
  match o with
  | Returns a => Returns (f a)
  | Raises e => Raises e
  end.

(** [best_row = best[0][2]] *)
Definition best_row (best : list entry) : outcome row :=
  match best with
  | [] => Raises IndexError
  | x :: _ => Returns x.2
  end.

(** ** Sample data *)

Definition demo_query : string := "Where can I find agency delivery zone codes?".

Definition row_zone : row :=
  {[ COL_COMMON := "Agency Delivery Zone";
     COL_KEYWORD := "Delivery Zone Code";
     COL_REPORT := "Agency/Card";
     COL_FULLKEY := "Agency.DeliveryZoneCode";
     COL_ENTITY := "Agency";
     COL_CANON := "delivery_zone_code";
     COL_SYNONYMS := "delivery zone, agency delivery zone codes" ]}.

Definition row_vendor : row :=
  {[ COL_COMMON := "Vendor Name";
     COL_KEYWORD := "Name";
     COL_REPORT := "Vendor List";
     COL_FULLKEY := "Vendor.Name";
     COL_ENTITY := "Vendors";
     COL_CANON := "vendor_name";
     COL_SYNONYMS := "supplier name, who sells" ]}.

Definition row_ledger : row :=
  {[ COL_COMMON := "Account Balance";
     COL_KEYWORD := "Balance";
     COL_REPORT := "Chart of Accounts";
     COL_FULLKEY := "GLAccount.Balance";
     COL_ENTITY := "Ledger";
     COL_CANON := "balance";
     COL_SYNONYMS := "account total" ]}.

(** ** The page

    The script from top to bottom, as Streamlit runs it once the three input
    widgets have their values: the uploaded sheet (already parsed by
    [pd.read_csv]), the question and the slider value.  What the page shows
    is the list of the output calls made, in order. *)

(** A [DataFrame]: its column names and its rows, in order. *)
Record dataframe := { df_columns : list string; df_rows : list row }.

(** Every row that [df.iterrows()] yields carries the columns of its frame. *)
Definition frame_ok (df : dataframe) : Prop :=
  ∀ r c, r ∈ df_rows df → c ∈ df_columns df → is_Some (r !! c).

Definition required_cols : list string :=
  [COL_COMMON; COL_KEYWORD; COL_REPORT; COL_FULLKEY; COL_ENTITY; COL_CANON;
   COL_SYNONYMS].

(** [missing = [c for c in required_cols if c not in df.columns]] *)
Definition missing_cols (df : dataframe) : list string :=
  filter (λ c, c ∉ df_columns df) required_cols.

(** The output calls: [st.title], [st.write], [st.error], [st.subheader],
    [st.markdown] and [st.code]. *)
Inductive widget :=
  | Title (s : string)
  | Write (s : string)
  | Error (s : string)
  | Subheader (s : string)
  | Markdown (s : string)
  | Code (s : string).

(** An exception that ends the run: the [KeyError] of [row[col]] on a column
    the row does not have, or one of [exn]. *)
Inductive crash :=
  | KeyError (key : string)
  | Uncaught (e : exn).

(** How a run ends: at the last line, at [st.stop()], or in an exception. *)
Inductive ending :=
  | Finished
  | Stopped
  | Crashed (e : crash).

Definition and_then {A B} (m : crash + A) (f : A → crash + B) : crash + B :=
  match m with
  | inl e => inl e
  | inr a => f a
  end.

(** [row[col]] *)
Definition row_item (r : row) (col : string) : crash + string :=
  match r !! col with
  | Some v => inr v
  | None => inl (KeyError col)
  end.

Definition newline : string := String "010" "".
Definition dquote : string := String "034" "".

(** The text of one match, the four-line f-string. *)
Definition block_text (rank : nat) (common report keyword fullkey : string)
    : string :=
  "**" +:+ pretty rank +:+ ". " +:+ common +:+ "**  " +:+ newline +:+
  "- Table: `" +:+ report +:+ "`  " +:+ newline +:+
  "- Column: `" +:+ keyword +:+ "`  " +:+ newline +:+
  "- Key: `" +:+ fullkey +:+ "`  " +:+ newline.

Definition match_block (rank : nat) (r : row) : crash + string :=
  and_then (row_item r COL_COMMON) (λ common,
  and_then (row_item r COL_REPORT) (λ report,
  and_then (row_item r COL_KEYWORD) (λ keyword,
  and_then (row_item r COL_FULLKEY) (λ fullkey,
  inr (block_text rank common report keyword fullkey))))).

(** [for rank, (s, why, row) in enumerate(best, start=1): st.markdown(...)],
    from [rank] on; [out] is what the page shows so far. *)
Fixpoint show_matches (rank : nat) (best : list entry) (out : list widget)
    : list widget * option crash :=
  match best with
  | [] => (out, None)
  | (_, _, r) :: best' =>
      match match_block rank r with
      | inl e => (out, Some e)
      | inr text => show_matches (S rank) best' (out ++ [Markdown text])
      end
  end.

(** The text of [st.code]: [f"{best_row[COL_COMMON]} | {best_row[COL_REPORT]}"]. *)
Definition answer_text (r : row) : crash + string :=
  and_then (row_item r COL_COMMON) (λ common,
  and_then (row_item r COL_REPORT) (λ report,
  inr (common +:+ " | " +:+ report))).

(** The body of [if q:]. *)
Definition results (q : string) (rows : list row) (top_k : Z)
    (out : list widget) : list widget * ending :=
  match rank q rows top_k with
  | Raises e => (out, Crashed (Uncaught e))
  | Returns best =>
      let out := out ++ [Subheader "Top matches"] in
      match show_matches 1 best out with
      | (out, Some e) => (out, Crashed e)
      | (out, None) =>
          let out := out ++ [Subheader "Best answer (copy)"] in
          match best_row best with
          | Raises e => (out, Crashed (Uncaught e))
          | Returns r =>
              match answer_text r with
              | inl e => (out, Crashed e)
              | inr text => (out ++ [Code text], Finished)
              end
          end
      end
  end.

Definition page_head : list widget :=
  [ Title "Report / Field Finder";
    Write ("Ask Something Like: " +:+ dquote +:+
           "Where can I find agency delivery zone codes?" +:+ dquote) ].

Definition app (uploaded : option dataframe) (q : string) (top_k : Z)
    : list widget * ending :=
  let out := page_head in
  match uploaded with
  | None => (out, Stopped)
  | Some df =>
      let missing := missing_cols df in
      if negb (bool_decide (missing = [])) then
        (out ++ [Error ("Missing columns: " +:+ Str.join ", " missing)], Stopped)
      else if Str.is_empty q then (out, Finished)
      else results q (df_rows df) top_k out
  end.

(** A row that has the four cells the page prints. *)
Definition printable (r : row) : Prop :=
  is_Some (r !! COL_COMMON) ∧ is_Some (r !! COL_REPORT)
  ∧ is_Some (r !! COL_KEYWORD) ∧ is_Some (r !! COL_FULLKEY).


(** The explanation of a row that earns nothing. *)
Definition no_points : gmap string Z :=
  <["syn_phrase_hit" := 0]> (<["token_overlap" := 0]> (<["entity_bonus" := 0]> ∅)).

Definition demo_frame : dataframe :=
  {| df_columns := required_cols; df_rows := [row_vendor; row_zone; row_ledger] |}.

(** ** Notions used to state the properties *)

(** The characters that are not whitespace and survive both substitutions:
    [a-z], [0-9] and the comma. *)
Definition wordchar (c : ascii) : bool :=
  Char.is_az c || Char.is_09 c || bool_decide (c = ","%char).

(** The alphabet of a normalised text. *)
Definition canonchar (c : ascii) : bool :=
  wordchar c || bool_decide (c = " "%char).

(** What the two substitutions and the two replacements leave of a character. *)
Definition scrub (c : ascii) : ascii :=
  let c := if kept c then c else " "%char in
  let c := if decide (c = "/"%char) then " "%char else c in
  if decide (c = "-"%char) then " "%char else c.

(** The parts of a row's score, named as the explanation names them. *)
Definition syn_phrase_hit (q_norm : string) (r : row) : Z :=
  foldl (phrase_step q_norm) 0 (phrase_list (Some (row_get r COL_SYNONYMS ""))).

Definition token_overlap (q_tokens : gset string) (r : row) : Z :=
  let common := normalize (Some (row_get r COL_COMMON "")) in
  let keyword := normalize (Some (row_get r COL_KEYWORD "")) in
  let report := normalize (Some (row_get r COL_REPORT "")) in
  let row_tokens := tokenize (Some common) ∪ tokenize (Some keyword) ∪ tokenize (Some report) in
  Z.min 6 (Z.of_nat (size (q_tokens ∩ row_tokens)) * 2).

(** The row's entity tag as [score_row] compares it. *)
Definition entity_of (r : row) : string :=
  normalize (Some (row_get r COL_ENTITY "")).

(** A group fires when one of its triggers occurs in the query. *)
Definition fires (q_norm : string) (g : string * list string) : bool :=
  any_in q_norm g.2.

(** The first group of a table that fires. *)
Definition first_hint (hints : list (string * list string)) (q_norm : string)
    : option (string * list string) :=
  List.find (fires q_norm) hints.

(** A phrase counts when it is not empty and occurs in the query. *)
Definition phrase_hit (q_norm p : string) : Prop :=
  p ≠ "" ∧ Str.contains p q_norm = true.

Definition phrase_pts (p : string) : Z := 8 + Str.len p `div` 10.

(** * Properties *)

(** ** Characters of a normalised text *)

#[local] Arguments Char.isspace : simpl never.
#[local] Arguments Char.lower : simpl never.
#[local] Arguments kept : simpl never.
#[local] Arguments wordchar : simpl never.
#[local] Arguments canonchar : simpl never.
#[local] Arguments scrub : simpl never.

Ltac by_char c :=
  destruct c as [[] [] [] [] [] [] [] []]; vm_compute; intuition congruence.

Lemma canonchar_lower c : canonchar c = true → Char.lower c = c.
Proof. by_char c. Qed.

Lemma canonchar_kept c : canonchar c = true → kept c = true.
Proof. by_char c. Qed.

Lemma canonchar_not_slash c : canonchar c = true → c ≠ "/"%char ∧ c ≠ "-"%char.
Proof. by_char c. Qed.

Lemma scrub_cases c : wordchar (scrub c) = true ∨ Char.isspace (scrub c) = true.
Proof. by_char c. Qed.

Lemma canonchar_spec c :
  canonchar c = true ↔
  Char.is_az c = true ∨ Char.is_09 c = true ∨ c = " "%char ∨ c = ","%char.
Proof. by_char c. Qed.

(** ** The functions on sample inputs *)

Example normalize_demo :
  normalize (Some "  Where can I find  Agency/Delivery-Zone codes?? ")
  = "where can i find agency delivery zone codes".
Proof. vm_compute. reflexivity. Qed.

Example tokenize_demo :
  tokenize (Some demo_query) = {[ "agency"; "delivery"; "zone"; "codes" ]}.
Proof. vm_compute. reflexivity. Qed.

Example phrase_list_demo :
  phrase_list (Some "Delivery Zone, zone code ,ab,, agency-delivery/zone")
  = ["delivery zone"; "zone code"; "agency delivery zone"].
Proof. vm_compute. reflexivity. Qed.

Example score_row_demo :
  (λ r, (score_row (normalize (Some demo_query)) (tokenize (Some demo_query)) r).1)
    <$> [row_zone; row_vendor; row_ledger]
  = [20; -1; -1].
Proof. vm_compute. reflexivity. Qed.

(** ** Facts on the string primitives *)

Section StrFacts.

Implicit Types (s t : string) (c : ascii) (b : bool).

Lemma all_map p f s :
  (∀ c, p (f c) = true) → Str.all p (Str.map f s) = true.
Proof. intros Hf. induction s as [|c s IH]; simpl; [done|]. by rewrite Hf, IH. Qed.

Lemma map_fixed p f s :
  (∀ c, p c = true → f c = c) → Str.all p s = true → Str.map f s = s.
Proof.
  intros Hf. induction s as [|c s IH]; simpl; [done|].
  intros [Hc Hs]%andb_true_iff. by rewrite Hf, IH.
Qed.

Lemma map_map f g s : Str.map g (Str.map f s) = Str.map (λ c, g (f c)) s.
Proof. induction s as [|c s IH]; simpl; [done|]. by rewrite IH. Qed.

Lemma all_lstrip p s : Str.all p s = true → Str.all p (Str.lstrip s) = true.
Proof.
  induction s as [|c s IH]; simpl; [done|].
  intros H. destruct (Char.isspace c); [|done].
  apply andb_true_iff in H as [_ H]. auto.
Qed.

Lemma all_rstrip p s : Str.all p s = true → Str.all p (Str.rstrip s) = true.
Proof.
  induction s as [|c s IH]; simpl; [done|].
  intros [Hc Hs]%andb_true_iff.
  destruct (Char.isspace c && Str.is_empty (Str.rstrip s)); simpl; [done|].
  by rewrite Hc, IH.
Qed.

Lemma all_strip p s : Str.all p s = true → Str.all p (Str.strip s) = true.
Proof. intros. by apply all_rstrip, all_lstrip. Qed.

(** After [\s+] has been replaced, whitespace is the space character. *)
Lemma all_sub_ws b s :
  Str.all (λ c, wordchar c || Char.isspace c) s = true →
  Str.all canonchar (Str.sub_ws b s) = true.
Proof.
  revert b. induction s as [|c s IH]; intros b; simpl; [done|].
  intros [Hc Hs]%andb_true_iff.
  destruct (Char.isspace c) eqn:Hsp.
  - destruct b; simpl; auto.
  - simpl. rewrite IH by done. rewrite orb_false_r in Hc.
    unfold canonchar. by rewrite Hc.
Qed.

Lemma length_lstrip s : (String.length (Str.lstrip s) ≤ String.length s)%nat.
Proof.
  induction s as [|c s IH]; simpl; [done|].
  destruct (Char.isspace c); simpl; lia.
Qed.

Lemma length_sub_ws b s :
  (String.length (Str.sub_ws b s) ≤ String.length s)%nat.
Proof.
  revert b. induction s as [|c s IH]; intros b; simpl; [done|].
  pose proof (IH true). pose proof (IH false).
  destruct (Char.isspace c), b; simpl; lia.
Qed.

(** A string that [sub_ws true] leaves alone does not start with
    whitespace. *)
Lemma sub_ws_true_fixed c s :
  Str.sub_ws true (String c s) = String c s →
  Char.isspace c = false ∧ Str.sub_ws false s = s.
Proof.
  simpl. destruct (Char.isspace c) eqn:Hsp.
  - intros H. pose proof (length_sub_ws true s) as Hl.
    rewrite H in Hl. simpl in Hl. lia.
  - intros [= H]. done.
Qed.

Lemma sub_ws_false_fixed c s :
  Str.sub_ws false (String c s) = String c s →
  (Char.isspace c = true ∧ c = " "%char ∧ Str.sub_ws true s = s)
  ∨ (Char.isspace c = false ∧ Str.sub_ws false s = s).
Proof.
  simpl. destruct (Char.isspace c) eqn:Hsp.
  - intros [= <- H]. by left.
  - intros [= H]. by right.
Qed.

Lemma sub_ws_idem b s : Str.sub_ws b (Str.sub_ws b s) = Str.sub_ws b s.
Proof.
  revert b. induction s as [|c s IH]; intros b; simpl; [done|].
  destruct (Char.isspace c) eqn:Hsp.
  - destruct b; [apply IH|]. simpl. by rewrite IH.
  - simpl. rewrite Hsp. by rewrite IH.
Qed.

Lemma sub_ws_lstrip b s :
  Str.sub_ws b s = s → Str.sub_ws false (Str.lstrip s) = Str.lstrip s.
Proof.
  revert b. induction s as [|c s IH]; intros b H; [done|].
  simpl. destruct (Char.isspace c) eqn:Hsp.
  - destruct b.
    + apply sub_ws_true_fixed in H as [? _]. congruence.
    + apply sub_ws_false_fixed in H as [(_ & _ & H)|[? _]]; [|congruence].
      by apply (IH true).
  - destruct b.
    + apply sub_ws_true_fixed in H as [_ H]. simpl. by rewrite Hsp, H.
    + done.
Qed.

Lemma sub_ws_rstrip b s :
  Str.sub_ws b s = s → Str.sub_ws b (Str.rstrip s) = Str.rstrip s.
Proof.
  revert b. induction s as [|c s IH]; intros b H; [done|].
  simpl. destruct (Char.isspace c && Str.is_empty (Str.rstrip s)); [done|].
  destruct b.
  - apply sub_ws_true_fixed in H as [Hsp H]. simpl. rewrite Hsp.
    by rewrite (IH false).
  - apply sub_ws_false_fixed in H as [(Hsp & -> & H)|[Hsp H]]; simpl; rewrite ?Hsp.
    + by rewrite (IH true).
    + by rewrite (IH false).
Qed.

Lemma lstrip_fixed c s :
  Str.lstrip (String c s) = String c s → Char.isspace c = false.
Proof.
  simpl. destruct (Char.isspace c); [|done].
  intros H. pose proof (length_lstrip s) as Hl. rewrite H in Hl. simpl in Hl. lia.
Qed.

Lemma lstrip_idem s : Str.lstrip (Str.lstrip s) = Str.lstrip s.
Proof.
  induction s as [|c s IH]; simpl; [done|].
  destruct (Char.isspace c) eqn:Hsp; [done|]. simpl. by rewrite Hsp.
Qed.

Lemma lstrip_rstrip s :
  Str.lstrip s = s → Str.lstrip (Str.rstrip s) = Str.rstrip s.
Proof.
  destruct s as [|c s]; [done|]. intros Hsp%lstrip_fixed.
  simpl. rewrite Hsp. simpl. by rewrite Hsp.
Qed.

Lemma rstrip_idem s : Str.rstrip (Str.rstrip s) = Str.rstrip s.
Proof.
  induction s as [|c s IH]; simpl; [done|].
  destruct (Char.isspace c && Str.is_empty (Str.rstrip s)) eqn:E; [done|].
  simpl. by rewrite IH, E.
Qed.

Lemma strip_idem s : Str.strip (Str.strip s) = Str.strip s.
Proof.
  unfold Str.strip.
  rewrite (lstrip_rstrip (Str.lstrip s)) by apply lstrip_idem.
  apply rstrip_idem.
Qed.

Lemma strip_lstrip s : Str.lstrip (Str.strip s) = Str.strip s.
Proof. unfold Str.strip. apply lstrip_rstrip, lstrip_idem. Qed.

Lemma strip_rstrip s : Str.rstrip (Str.strip s) = Str.strip s.
Proof. unfold Str.strip. apply rstrip_idem. Qed.

End StrFacts.

(** ** [normalize] *)

Section Normalize.

Implicit Types (s t u v : string) (c : ascii) (text : option string).

Lemma app_cons c u v : String c u +:+ v = String c (u +:+ v).
Proof. reflexivity. Qed.

Lemma app_empty v : "" +:+ v = v.
Proof. reflexivity. Qed.

Lemma all_chars p s :
  Str.all p s = true ↔ ∀ c, c ∈ list_ascii_of_string s → p c = true.
Proof.
  induction s as [|a s IH]; simpl.
  - split; [|done]. intros _ c Hc. by apply elem_of_nil in Hc.
  - rewrite andb_true_iff, IH. split.
    + intros [Ha Hs] c [->|Hc]%elem_of_cons; auto.
    + intros H. split; [|intros c Hc]; apply H; by constructor.
Qed.

(** The four steps of [normalize], the middle ones character by
    character. *)
Lemma normalize_steps text :
  normalize text
  = Str.strip (Str.sub_ws false
      (Str.map scrub (Str.strip (Str.lower (or_empty text))))).
Proof.
  unfold normalize, Str.replace. by rewrite !map_map.
Qed.

Lemma normalize_canon text : Str.all canonchar (normalize text) = true.
Proof.
  rewrite normalize_steps. apply all_strip, all_sub_ws, all_map.
  intros c. destruct (scrub_cases c) as [-> | ->]; [done|apply orb_true_r].
Qed.

Lemma normalize_sub_ws text :
  Str.sub_ws false (normalize text) = normalize text.
Proof.
  rewrite normalize_steps. unfold Str.strip at 1 3.
  apply sub_ws_rstrip, (sub_ws_lstrip false), sub_ws_idem.
Qed.

Lemma normalize_strip text : Str.strip (normalize text) = normalize text.
Proof. rewrite normalize_steps. apply strip_idem. Qed.

(** A text in the canonical alphabet, already stripped and with single
    spaces, is left as it is. *)
Lemma normalize_fixed s :
  Str.all canonchar s = true → Str.strip s = s → Str.sub_ws false s = s →
  normalize (Some s) = s.
Proof.
  intros Hall Hstrip Hws. rewrite normalize_steps. simpl.
  unfold Str.lower.
  rewrite (map_fixed canonchar Char.lower s canonchar_lower Hall).
  rewrite Hstrip, (map_fixed canonchar), Hws, Hstrip; auto.
  intros c Hc. unfold scrub. rewrite canonchar_kept by done.
  destruct (canonchar_not_slash c Hc).
  rewrite (decide_False (P := c = "/"%char)) by done. by rewrite decide_False.
Qed.

Lemma sub_ws_no_double b u x y v :
  Str.sub_ws b (u +:+ String x (String y v)) = u +:+ String x (String y v) →
  ¬ (Char.isspace x = true ∧ Char.isspace y = true).
Proof.
  revert b. induction u as [|d u IH]; intros b H [Hx Hy].
  - rewrite app_empty in H.
    pose proof (length_sub_ws true v) as Hl.
    apply (f_equal String.length) in H. simpl in H. rewrite Hx, Hy in H.
    destruct b; simpl in H; lia.
  - rewrite app_cons in H. destruct b.
    + apply sub_ws_true_fixed in H as [_ H]. by apply (IH false).
    + apply sub_ws_false_fixed in H as [(_ & _ & H)|[_ H]];
        [by apply (IH true)|by apply (IH false)].
Qed.

Lemma rstrip_fixed_last u c :
  Str.rstrip (u +:+ String c "") = u +:+ String c "" → Char.isspace c = false.
Proof.
  induction u as [|d u IH].
  - rewrite app_empty. simpl. by destruct (Char.isspace c).
  - rewrite app_cons. simpl.
    destruct (Char.isspace d && Str.is_empty (Str.rstrip (u +:+ String c "")));
      [done|]. intros [= H]. auto.
Qed.

End Normalize.

(** C6. [normalize] is idempotent: normalising a normalised text again
    changes nothing, whatever the text (a string or [None]). *)
Theorem normalize_idempotent (text : option string) :
  normalize (Some (normalize text)) = normalize text.
Proof.
  apply normalize_fixed;
    auto using normalize_canon, normalize_strip, normalize_sub_ws.
Qed.

(** C7. A normalised text holds only lowercase ASCII letters, digits, spaces
    and commas; no slash and no hyphen is left in it; no two whitespace
    characters stand side by side, and none stands first or last. *)
Theorem normalize_charset_and_spacing (text : option string) :
  let t := normalize text in
  (∀ c, c ∈ list_ascii_of_string t →
        Char.is_az c = true ∨ Char.is_09 c = true ∨ c = " "%char ∨ c = ","%char)
  ∧ ("/"%char ∉ list_ascii_of_string t)
  ∧ ("-"%char ∉ list_ascii_of_string t)
  ∧ (∀ u a b v, t = u +:+ String a (String b v) →
                ¬ (Char.isspace a = true ∧ Char.isspace b = true))
  ∧ (∀ c v, t = String c v → Char.isspace c = false)
  ∧ (∀ u c, t = u +:+ String c "" → Char.isspace c = false).
Proof.
  intros t.
  pose proof (normalize_canon text) as Hcanon. fold t in Hcanon.
  rewrite all_chars in Hcanon.
  split_and!.
  - intros c Hc. by apply canonchar_spec, Hcanon.
  - intros Hc%Hcanon. discriminate Hc.
  - intros Hc%Hcanon. discriminate Hc.
  - intros u a b v Ht. apply (sub_ws_no_double false u a b v).
    rewrite <- Ht. apply normalize_sub_ws.
  - intros c v Ht. apply (lstrip_fixed c v).
    rewrite <- Ht. unfold t.
    pose proof (strip_lstrip (normalize text)) as H. by rewrite normalize_strip in H.
  - intros u c Ht. apply (rstrip_fixed_last u c).
    rewrite <- Ht. unfold t.
    pose proof (strip_rstrip (normalize text)) as H. by rewrite normalize_strip in H.
Qed.

(** ** [tokenize] *)

(** C8. The tokens of a text are the whitespace-separated words of its
    normalised form that have at least three characters and are no stopword.
    The empty string and [None] have no tokens, and a stopword is never a
    token of itself. *)
Theorem tokenize_spec (text : option string) :
  (∀ w, w ∈ tokenize text ↔
        w ∈ Str.split (normalize text) ∧ 3 ≤ Str.len w ∧ w ∉ STOPWORDS)
  ∧ tokenize (Some "") = ∅
  ∧ tokenize None = ∅
  ∧ (∀ w, w ∈ STOPWORDS → w ∉ tokenize (Some w)).
Proof.
  assert (Hmem : ∀ t w, w ∈ tokenize t ↔
            w ∈ Str.split (normalize t) ∧ 3 ≤ Str.len w ∧ w ∉ STOPWORDS).
  { intros t w. unfold tokenize. rewrite elem_of_list_to_set, list_elem_of_filter.
    tauto. }
  split_and!.
  - apply Hmem.
  - vm_compute. reflexivity.
  - vm_compute. reflexivity.
  - intros w Hw Htok. apply Hmem in Htok. tauto.
Qed.

(** ** [score_row] *)

Section Score.

Implicit Types (q_norm entity : string) (q_tokens : gset string) (r : row)
  (hints : list (string * list string)) (st : Z * gmap string Z).

Lemma score_row_parts q_norm q_tokens r :
  score_row q_norm q_tokens r
  = entity_loop ENTITY_HINTS q_norm (entity_of r)
      (syn_phrase_hit q_norm r + token_overlap q_tokens r,
       <["token_overlap" := token_overlap q_tokens r]>
         (<["syn_phrase_hit" := syn_phrase_hit q_norm r]>
            (<["syn_phrase_hit" := 0]>
               (<["token_overlap" := 0]> (<["entity_bonus" := 0]> ∅))))).
Proof. reflexivity. Qed.

(** The loop stops at the first group that fires. *)
Lemma entity_loop_first hints q_norm entity st :
  entity_loop hints q_norm entity st
  = match first_hint hints q_norm with
    | Some (ent, _) =>
        if decide (ent = entity)
        then (st.1 + 4, <["entity_bonus" := 4]> st.2)
        else (st.1 - 1, st.2)
    | None => st
    end.
Proof.
  unfold first_hint, fires.
  induction hints as [|[ent words] hints IH]; simpl; [done|].
  destruct (any_in q_norm words); [done|apply IH].
Qed.

(** [find] returns the entry at the least index that satisfies the test. *)
Lemma first_hint_at hints q_norm i g :
  hints !! i = Some g → fires q_norm g = true →
  (∀ j g', (j < i)%nat → hints !! j = Some g' → fires q_norm g' = false) →
  first_hint hints q_norm = Some g.
Proof.
  unfold first_hint. revert i.
  induction hints as [|h hints IH]; intros [|i] Hi Hg Hbefore; simplify_eq/=.
  - by rewrite Hg.
  - rewrite (Hbefore 0%nat h) by (done || lia).
    apply (IH i); [done..|].
    intros j g' Hj Hg'. apply (Hbefore (S j)); [lia|done].
Qed.

Lemma first_hint_none hints q_norm :
  (∀ g, g ∈ hints → fires q_norm g = false) → first_hint hints q_norm = None.
Proof.
  unfold first_hint. induction hints as [|h hints IH]; intros Hall; simpl; [done|].
  rewrite Hall by constructor. apply IH. intros g Hg. apply Hall. by constructor.
Qed.

Lemma first_hint_fires hints q_norm g :
  first_hint hints q_norm = Some g → g ∈ hints ∧ fires q_norm g = true.
Proof.
  unfold first_hint. intros [H1 H2]%find_some. split; [|done].
  by apply list_elem_of_In.
Qed.

(** The three entries of the explanation and the score, by what the entity
    loop met. *)
Lemma score_row_result q_norm q_tokens r :
  let syn := syn_phrase_hit q_norm r in
  let tok := token_overlap q_tokens r in
  let res := score_row q_norm q_tokens r in
  res.2 !! "syn_phrase_hit" = Some syn
  ∧ res.2 !! "token_overlap" = Some tok
  ∧ dom res.2 = {[ "syn_phrase_hit"; "token_overlap"; "entity_bonus" ]}
  ∧ match first_hint ENTITY_HINTS q_norm with
    | Some (ent, _) =>
        if decide (ent = entity_of r)
        then res.1 = syn + tok + 4 ∧ res.2 !! "entity_bonus" = Some 4
        else res.1 = syn + tok - 1 ∧ res.2 !! "entity_bonus" = Some 0
    | None => res.1 = syn + tok ∧ res.2 !! "entity_bonus" = Some 0
    end.
Proof.
  intros syn tok res. unfold res. rewrite score_row_parts, entity_loop_first.
  fold syn tok.
  destruct (first_hint ENTITY_HINTS q_norm) as [[ent ws]|];
    [destruct (decide (ent = entity_of r))|]; simpl;
    (split_and!; [by simplify_map_eq..|rewrite !dom_insert_L; set_solver|done|
                  by simplify_map_eq]).
Qed.

Lemma token_overlap_range q_tokens r : 0 ≤ token_overlap q_tokens r ≤ 6.
Proof. unfold token_overlap. lia. Qed.

Lemma phrase_hit_bool q_norm p :
  negb (Str.is_empty p) && Str.contains p q_norm = true ↔ phrase_hit q_norm p.
Proof.
  unfold phrase_hit. rewrite andb_true_iff, negb_true_iff.
  destruct p; simpl; split; intros [??]; split; congruence.
Qed.

(** The loop over the phrases computes a maximum. *)
Lemma foldl_phrase_step q_norm (l : list string) (acc : Z) :
  let v := foldl (phrase_step q_norm) acc l in
  acc ≤ v
  ∧ (∀ p, p ∈ l → phrase_hit q_norm p → phrase_pts p ≤ v)
  ∧ (v = acc ∨ ∃ p, p ∈ l ∧ phrase_hit q_norm p ∧ v = phrase_pts p).
Proof.
  revert acc. induction l as [|p l IH]; intros acc; simpl.
  - split_and!; [done| |by left]. intros p Hp. by apply elem_of_nil in Hp.
  - destruct (IH (phrase_step q_norm acc p)) as (Hle & Hub & Hwit).
    assert (Hstep : acc ≤ phrase_step q_norm acc p
              ∧ (phrase_hit q_norm p → phrase_pts p ≤ phrase_step q_norm acc p)
              ∧ (phrase_step q_norm acc p = acc
                 ∨ phrase_hit q_norm p ∧ phrase_step q_norm acc p = phrase_pts p)).
    { unfold phrase_step. fold (phrase_pts p).
      destruct (negb _ && _) eqn:E.
      - apply phrase_hit_bool in E. split_and!; [lia|lia|].
        destruct (Z.max_spec acc (phrase_pts p)) as [[_ ->]|[_ ->]]; auto.
      - split_and!; [lia| |by left].
        intros H%phrase_hit_bool. congruence. }
    destruct Hstep as (Hs1 & Hs2 & Hs3).
    split_and!.
    + lia.
    + intros p' [->|Hp']%elem_of_cons Hhit; [|by apply Hub].
      specialize (Hs2 Hhit). lia.
    + destruct Hwit as [Hv|(p' & Hp' & Hhit & Hv)].
      * destruct Hs3 as [Hs3|[Hhit Hs3]].
        -- left. congruence.
        -- right. exists p. split_and!; [by constructor|done|congruence].
      * right. exists p'. split_and!; [by constructor|done..].
Qed.

Lemma syn_phrase_hit_nonneg q_norm r : 0 ≤ syn_phrase_hit q_norm r.
Proof. apply (foldl_phrase_step q_norm _ 0). Qed.

End Score.

Section Contains.

Implicit Types (p s needle hay : string).

Lemma all_startswith (P : ascii → bool) p s :
  Str.startswith p s = true → Str.all P s = true → Str.all P p = true.
Proof.
  revert s. induction p as [|a p IH]; intros [|b s]; simpl; try done.
  intros [->%bool_decide_eq_true Hp]%andb_true_iff [Hb Hs]%andb_true_iff.
  rewrite Hb. eauto.
Qed.

(** The characters of a substring are characters of the whole. *)
Lemma all_contains (P : ascii → bool) needle hay :
  Str.contains needle hay = true → Str.all P hay = true →
  Str.all P needle = true.
Proof.
  induction hay as [|b hay IH]; simpl.
  - rewrite orb_false_r. intros H _. by apply (all_startswith P _ "" H).
  - intros [H|H]%orb_true_iff Hall.
    + by apply (all_startswith P _ _ H).
    + apply andb_true_iff in Hall as [_ Hall]. auto.
Qed.

Lemma contains_not_canon needle text :
  Str.all canonchar needle = false →
  Str.contains needle (normalize text) = false.
Proof.
  intros Hneedle. destruct (Str.contains _ _) eqn:E; [|done].
  apply (all_contains canonchar) in E; [congruence|apply normalize_canon].
Qed.

End Contains.

(** C2. The entity adjustment of [score_row] looks at the first group only,
    in the order agency, donors, vendors, items, ledger: if group [i] is the
    first one a trigger of which occurs in the normalised query, the score is
    the phrase and token points plus 4 with [entity_bonus = 4] when its tag
    is the row's normalised entity tag, and minus 1 with [entity_bonus] left
    at 0 when it is not, whatever the later groups are; if no group has a
    trigger in the query, nothing is added. *)
Theorem entity_hint_first_group (q_norm : string) (q_tokens : gset string) (r : row) :
  let res := score_row q_norm q_tokens r in
  let base := syn_phrase_hit q_norm r + token_overlap q_tokens r in
  ENTITY_HINTS.*1 = ["agency"; "donors"; "vendors"; "items"; "ledger"]
  ∧ (∀ (i : nat) ent words,
       ENTITY_HINTS !! i = Some (ent, words) →
       any_in q_norm words = true →
       (∀ (j : nat) g, (j < i)%nat → ENTITY_HINTS !! j = Some g →
                       any_in q_norm g.2 = false) →
       if decide (ent = entity_of r)
       then res.1 = base + 4 ∧ res.2 !! "entity_bonus" = Some 4
       else res.1 = base - 1 ∧ res.2 !! "entity_bonus" = Some 0)
  ∧ ((∀ g, g ∈ ENTITY_HINTS → any_in q_norm g.2 = false) →
       res.1 = base ∧ res.2 !! "entity_bonus" = Some 0).
Proof.
  intros res base. subst res base.
  destruct (score_row_result q_norm q_tokens r) as (_ & _ & _ & H).
  split_and!; [done| |].
  - intros i ent words Hi Hfire Hbefore.
    by rewrite (first_hint_at ENTITY_HINTS q_norm i (ent, words)) in H.
  - intros Hnone. by rewrite first_hint_none in H.
Qed.

(** C10. The explanation of [score_row] has exactly the keys
    [syn_phrase_hit], [token_overlap] and [entity_bonus], none of them
    negative.  The score is their sum minus 1 exactly when the entity loop
    stopped at a group whose tag is not the row's entity, and their sum
    otherwise; so no score is below -1. *)
Theorem score_row_explanation (q_norm : string) (q_tokens : gset string) (r : row) :
  let res := score_row q_norm q_tokens r in
  let mismatch := ∃ ent words,
    first_hint ENTITY_HINTS q_norm = Some (ent, words) ∧ ent ≠ entity_of r in
  dom res.2 = {[ "syn_phrase_hit"; "token_overlap"; "entity_bonus" ]}
  ∧ (∀ k v, res.2 !! k = Some v → 0 ≤ v)
  ∧ (∃ syn tok bonus,
       res.2 !! "syn_phrase_hit" = Some syn
       ∧ res.2 !! "token_overlap" = Some tok
       ∧ res.2 !! "entity_bonus" = Some bonus
       ∧ (res.1 = syn + tok + bonus - 1 ↔ mismatch)
       ∧ (res.1 = syn + tok + bonus ↔ ¬ mismatch))
  ∧ -1 ≤ res.1.
Proof.
  intros res mismatch.
  pose proof (score_row_result q_norm q_tokens r) as H.
  pose proof (syn_phrase_hit_nonneg q_norm r) as Hsyn.
  pose proof (token_overlap_range q_tokens r) as Htok.
  fold res in H. destruct H as (Hs & Ht & Hdom & H).
  destruct res as [score why]. cbn [fst snd] in *.
  assert (Hcases : ∃ bonus, why !! "entity_bonus" = Some bonus ∧ 0 ≤ bonus
            ∧ (mismatch ∧ score = syn_phrase_hit q_norm r
                           + token_overlap q_tokens r + bonus - 1
               ∨ ¬ mismatch ∧ score = syn_phrase_hit q_norm r
                           + token_overlap q_tokens r + bonus)).
  { unfold mismatch.
    destruct (first_hint ENTITY_HINTS q_norm) as [[ent ws]|];
      [destruct (decide (ent = entity_of r))|]; destruct H as [-> Hb].
    - exists 4. split_and!; [done|lia|]. right. split; [|lia].
      intros (? & ? & [= <- <-] & ?). done.
    - exists 0. split_and!; [done|lia|]. left. split; [|lia]. by exists ent, ws.
    - exists 0. split_and!; [done|lia|]. right. split; [|lia].
      intros (? & ? & [=] & ?). }
  destruct Hcases as (bonus & Hb & Hbonus & Hscore).
  split_and!.
  - done.
  - intros k v Hk.
    assert (Hin : k ∈ dom why) by (apply elem_of_dom; eauto).
    rewrite Hdom, !elem_of_union, !elem_of_singleton in Hin.
    destruct Hin as [[-> | ->] | ->]; simplify_eq; lia.
  - exists (syn_phrase_hit q_norm r), (token_overlap q_tokens r), bonus.
    split_and!; [done..| |]; split; intros; destruct Hscore as [[??]|[??]];
      (done || lia).
  - destruct Hscore as [[??]|[??]]; lia.
Qed.

(** C3, as the claim words it, fails: a row that lists "delivery zone" and
    also the longer phrase "agency delivery zone codes" gets 10 phrase
    points for the sample query, not 9. *)
Lemma syn_phrase_longer_phrase_wins :
  "delivery zone" ∈ phrase_list (Some (row_get row_zone COL_SYNONYMS ""))
  ∧ (score_row (normalize (Some demo_query)) (tokenize (Some demo_query)) row_zone).2
      !! "syn_phrase_hit" = Some 10
  ∧ (score_row (normalize (Some demo_query)) (tokenize (Some demo_query)) row_zone).2
      !! "syn_phrase_hit" ≠ Some 9.
Proof.
  split_and!.
  - vm_compute phrase_list. by constructor.
  - vm_compute. reflexivity.
  - vm_compute. discriminate.
Qed.

(** C3 (amended). The synonym-phrase points of [score_row] are the greatest
    [8 + len(p) // 10] over the phrases [p] of [phrase_list(synonyms)] that
    are non-empty substrings of the normalised query, and 0 when there is
    none.  For the query "Where can I find agency delivery zone codes?" and
    a row that lists the phrase "delivery zone" they are at least 9, and
    exactly 9 when no phrase of the row found in the query has 20 characters
    or more. *)
Theorem syn_phrase_component (q_norm : string) (q_tokens : gset string) (r : row) :
  let phrases := phrase_list (Some (row_get r COL_SYNONYMS "")) in
  ∃ v, (score_row q_norm q_tokens r).2 !! "syn_phrase_hit" = Some v
     ∧ (∀ p, p ∈ phrases → phrase_hit q_norm p → phrase_pts p ≤ v)
     ∧ ((∃ p, p ∈ phrases ∧ phrase_hit q_norm p ∧ v = phrase_pts p)
        ∨ ((∀ p, p ∈ phrases → ¬ phrase_hit q_norm p) ∧ v = 0))
     ∧ (q_norm = normalize (Some demo_query) → "delivery zone" ∈ phrases →
        9 ≤ v
        ∧ ((∀ p, p ∈ phrases → phrase_hit q_norm p → Str.len p < 20) → v = 9)).
Proof.
  intros phrases.
  destruct (score_row_result q_norm q_tokens r) as (Hs & _).
  destruct (foldl_phrase_step q_norm phrases 0) as (Hle & Hub & Hwit).
  change (foldl (phrase_step q_norm) 0 phrases)
    with (syn_phrase_hit q_norm r) in Hle, Hub, Hwit.
  generalize dependent (syn_phrase_hit q_norm r). intros v Hs Hle Hub Hwit.
  assert (Hpts : ∀ p, 8 ≤ phrase_pts p).
  { intros p. unfold phrase_pts, Str.len.
    assert (0 ≤ Z.of_nat (String.length p) `div` 10) by (apply Z.div_pos; lia).
    lia. }
  exists v. split_and!; [done|done| |].
  - destruct Hwit as [Hv|Hwit]; [|by left].
    right. split; [|done]. intros p Hp Hhit.
    specialize (Hub p Hp Hhit). specialize (Hpts p). lia.
  - intros -> Hzone.
    assert (Hhit : phrase_hit (normalize (Some demo_query)) "delivery zone")
      by (split; [done|by vm_compute]).
    pose proof (Hub _ Hzone Hhit) as H9. change (phrase_pts "delivery zone") with 9 in H9.
    split; [done|]. intros Hshort.
    destruct Hwit as [Hv|(p & Hp & Hp' & Hv)]; [lia|].
    specialize (Hshort p Hp Hp'). unfold phrase_pts in Hv.
    assert (Str.len p `div` 10 < 2) by (apply Z.div_lt_upper_bound; lia).
    lia.
Qed.

(** C9. No normalised query contains "g/l", so that trigger never fires:
    the ledger group fires just when "gl", "ledger", "general ledger" or
    "journal" occurs; when none of the four does, the entity loop does not
    stop at the ledger group, and a query that names the ledger as "G/L"
    only gets no entity adjustment at all. *)
Theorem ledger_slash_trigger_dead (text : option string) (q_tokens : gset string)
    (r : row) :
  let q_norm := normalize text in
  let others := ["gl"; "ledger"; "general ledger"; "journal"] in
  Str.contains "g/l" q_norm = false
  ∧ (∀ words, ("ledger", words) ∈ ENTITY_HINTS →
              any_in q_norm words = any_in q_norm others)
  ∧ (any_in q_norm others = false →
     ∀ g, first_hint ENTITY_HINTS q_norm = Some g → g.1 ≠ "ledger")
  ∧ (let res := score_row (normalize (Some "Where can I find the G/L balance?"))
                  q_tokens r in
     res.1 = syn_phrase_hit (normalize (Some "Where can I find the G/L balance?")) r
             + token_overlap q_tokens r
     ∧ res.2 !! "entity_bonus" = Some 0).
Proof.
  intros q_norm others.
  assert (Hdead : Str.contains "g/l" q_norm = false)
    by (by apply contains_not_canon).
  assert (Hledger : ∀ words, ("ledger", words) ∈ ENTITY_HINTS →
            any_in q_norm words = any_in q_norm others).
  { intros words Hin. unfold ENTITY_HINTS in Hin.
    repeat (apply elem_of_cons in Hin as [Hin|Hin]; [simplify_eq|]).
    - unfold any_in, others. cbn [existsb]. by rewrite Hdead.
    - by apply elem_of_nil in Hin. }
  split_and!; [done|done| |].
  - intros Hnone [ent words] [Hin Hfire]%first_hint_fires Heq.
    unfold fires in Hfire. cbn [fst snd] in *. subst ent.
    rewrite (Hledger words Hin) in Hfire. congruence.
  - intros res. subst res.
    set (q := normalize (Some "Where can I find the G/L balance?")).
    destruct (score_row_result q q_tokens r) as (_ & _ & _ & H).
    assert (Hq : first_hint ENTITY_HINTS q = None) by (by vm_compute).
    by rewrite Hq in H.
Qed.

(** ** The stable descending sort *)

Section Sort.

Context {A : Type} (key : A → Z).

Implicit Types (x y : A) (l : list A) (v : Z).

Lemma insert_desc_perm x l : insert_desc key x l ≡ₚ x :: l.
Proof.
  induction l as [|y l IH]; simpl; [done|].
  destruct (decide (key x < key y)); [|done].
  rewrite IH. apply perm_swap.
Qed.

Lemma sort_desc_perm l : sort_desc key l ≡ₚ l.
Proof.
  induction l as [|x l IH]; simpl; [done|].
  by rewrite insert_desc_perm, IH.
Qed.

Lemma insert_desc_sorted x l :
  StronglySorted (λ a b, key b ≤ key a) l →
  StronglySorted (λ a b, key b ≤ key a) (insert_desc key x l).
Proof.
  induction 1 as [|y l Hl IH Hy]; simpl.
  - repeat constructor.
  - destruct (decide (key x < key y)).
    + constructor; [done|]. rewrite insert_desc_perm.
      constructor; [lia|done].
    + constructor; [by constructor|].
      constructor; [lia|]. eapply Forall_impl; [done|]. simpl. intros; lia.
Qed.

Lemma sort_desc_sorted l : StronglySorted (λ a b, key b ≤ key a) (sort_desc key l).
Proof.
  induction l as [|x l IH]; simpl; [constructor|].
  by apply insert_desc_sorted.
Qed.

(** An entry only ever moves past entries of strictly greater key, so the
    entries of any one key keep their order. *)
Lemma insert_desc_stable v x l :
  filter (λ y, key y = v) (insert_desc key x l)
  = filter (λ y, key y = v) (x :: l).
Proof.
  induction l as [|y l IH]; simpl; [done|].
  destruct (decide (key x < key y)); [|done].
  rewrite !filter_cons in *.
  destruct (decide (key y = v)), (decide (key x = v)); try lia;
    by rewrite IH.
Qed.

Lemma sort_desc_stable v l :
  filter (λ y, key y = v) (sort_desc key l) = filter (λ y, key y = v) l.
Proof.
  induction l as [|x l IH]; simpl; [done|].
  rewrite insert_desc_stable, !filter_cons. by rewrite IH.
Qed.

(** The contract of [list.sort] fixes the result: two lists that are sorted
by decreasing key and agree on the entries of every key, in order, are
equal.  So any stable sort yields [sort_desc]. *)
Lemma sorted_stable_unique l1 l2 :
  StronglySorted (λ a b, key b ≤ key a) l1 →
  StronglySorted (λ a b, key b ≤ key a) l2 →
  (∀ v, filter (λ y, key y = v) l1 = filter (λ y, key y = v) l2) →
  l1 = l2.
Proof.
  intros H1. revert l2.
  induction H1 as [|x l1 Hl1 IH Hx]; intros l2 H2 Hfilter.
  - destruct l2 as [|y l2]; [done|].
    specialize (Hfilter (key y)). rewrite filter_nil, filter_cons_True in Hfilter; done.
  - destruct H2 as [|y l2 Hl2 Hy].
    { specialize (Hfilter (key x)).
      rewrite filter_nil, filter_cons_True in Hfilter; done. }
    assert (Hxy : key x ≤ key y).
    { pose proof (Hfilter (key x)) as Hf. rewrite filter_cons_True in Hf by done.
      assert (Hin : x ∈ filter (λ z, key z = key x) (y :: l2))
        by (rewrite <- Hf; constructor).
      apply list_elem_of_filter in Hin as [_ [->|Hin]%elem_of_cons]; [lia|].
      rewrite Forall_forall in Hy. specialize (Hy x Hin). simpl in Hy. lia. }
    assert (Hyx : key y ≤ key x).
    { pose proof (Hfilter (key y)) as Hf.
      rewrite (filter_cons_True _ y) in Hf by done.
      assert (Hin : y ∈ filter (λ z, key z = key y) (x :: l1))
        by (rewrite Hf; constructor).
      apply list_elem_of_filter in Hin as [_ [->|Hin]%elem_of_cons]; [lia|].
      rewrite Forall_forall in Hx. specialize (Hx y Hin). simpl in Hx. lia. }
    assert (x = y) as <-.
    { pose proof (Hfilter (key x)) as Hf.
      rewrite !filter_cons_True in Hf by lia. by injection Hf. }
    f_equal. apply IH; [done|]. intros v. specialize (Hfilter v).
    rewrite !filter_cons in Hfilter. destruct (decide (key x = v)); [|done].
    by injection Hfilter.
Qed.

Lemma sort_desc_unique l l' :
  StronglySorted (λ a b, key b ≤ key a) l' →
  (∀ v, filter (λ y, key y = v) l' = filter (λ y, key y = v) l) →
  l' = sort_desc key l.
Proof.
  intros Hsorted Hstable. apply sorted_stable_unique; [done|apply sort_desc_sorted|].
  intros v. by rewrite sort_desc_stable.
Qed.

End Sort.

(** ** Ranking *)

Section Ranking.

Implicit Types (q : string) (df : list row) (top_k : Z).

(** Each row is scored on its own: the loop is a map over the rows. *)
Lemma score_rows_go q_norm q_tokens df (acc : list entry) :
  foldl (λ scored r, let '(s, why) := score_row q_norm q_tokens r in
                     scored ++ [(s, why, r)]) acc df
  = acc ++ ((λ r, ((score_row q_norm q_tokens r).1,
                   (score_row q_norm q_tokens r).2, r)) <$> df).
Proof.
  revert acc. induction df as [|r df IH]; intros acc; simpl.
  - by rewrite app_nil_r.
  - rewrite IH. destruct (score_row q_norm q_tokens r) as [s why]. simpl.
    by rewrite <- app_assoc.
Qed.

Lemma score_rows_map q_norm q_tokens df :
  score_rows q_norm q_tokens df
  = (λ r, ((score_row q_norm q_tokens r).1, (score_row q_norm q_tokens r).2, r))
      <$> df.
Proof. apply score_rows_go. Qed.

Lemma scored_perm q df :
  scored q df ≡ₚ score_rows (normalize (Some q)) (tokenize (Some q)) df.
Proof. apply sort_desc_perm. Qed.

Lemma scored_length q df : length (scored q df) = length df.
Proof. by rewrite scored_perm, score_rows_map, length_fmap. Qed.

End Ranking.

(** C4. The ranking sorts the scored rows by decreasing score, and rows of
    equal score keep the order they have in the dataset.  Each row's entry
    depends on that row alone, so ranking a permutation of the dataset gives
    the same entries (as a multiset), the ties now in the order of the
    permuted dataset.  Decreasing scores with ties in dataset order leave
    room for one result only.  (This is the list [scored], before it is cut
    to [top_k].) *)
Theorem ranking_stable_sort (q : string) (df df' : list row) :
  df ≡ₚ df' →
  let unsorted d :=
    (λ r, ((score_row (normalize (Some q)) (tokenize (Some q)) r).1,
           (score_row (normalize (Some q)) (tokenize (Some q)) r).2, r)) <$> d in
  StronglySorted (λ a b, score_of b ≤ score_of a) (scored q df)
  ∧ scored q df ≡ₚ unsorted df
  ∧ (∀ v, filter (λ x, score_of x = v) (scored q df)
          = filter (λ x, score_of x = v) (unsorted df))
  ∧ (∀ l, StronglySorted (λ a b, score_of b ≤ score_of a) l →
          (∀ v, filter (λ x, score_of x = v) l
                = filter (λ x, score_of x = v) (unsorted df)) →
          l = scored q df)
  ∧ scored q df' ≡ₚ scored q df
  ∧ StronglySorted (λ a b, score_of b ≤ score_of a) (scored q df')
  ∧ (∀ v, filter (λ x, score_of x = v) (scored q df')
          = filter (λ x, score_of x = v) (unsorted df')).
Proof.
  intros Hperm unsorted.
  assert (Hrows : ∀ d, score_rows (normalize (Some q)) (tokenize (Some q)) d
                       = unsorted d) by (intros d; exact (score_rows_map _ _ d)).
  split_and!.
  - apply sort_desc_sorted.
  - rewrite scored_perm, Hrows. reflexivity.
  - intros v. unfold scored. rewrite sort_desc_stable, Hrows. reflexivity.
  - intros l Hsorted Hstable. unfold scored. apply sort_desc_unique; [done|].
    intros v. rewrite Hrows. apply Hstable.
  - rewrite !scored_perm, !Hrows. unfold unsorted. rewrite Hperm. reflexivity.
  - apply sort_desc_sorted.
  - intros v. unfold scored. rewrite sort_desc_stable, Hrows. reflexivity.
Qed.

Lemma ranking_stable_sort_witness :
  [row_vendor; row_zone; row_ledger] ≡ₚ [row_ledger; row_zone; row_vendor]
  ∧ shown <$> scored demo_query [row_vendor; row_zone; row_ledger]
    = [(20, "Agency Delivery Zone"); (-1, "Vendor Name"); (-1, "Account Balance")]
  ∧ shown <$> scored demo_query [row_ledger; row_zone; row_vendor]
    = [(20, "Agency Delivery Zone"); (-1, "Account Balance"); (-1, "Vendor Name")]
  ∧ scored demo_query [row_ledger; row_zone; row_vendor]
    ≡ₚ scored demo_query [row_vendor; row_zone; row_ledger].
Proof.
  assert (H : [row_vendor; row_zone; row_ledger] ≡ₚ [row_ledger; row_zone; row_vendor]).
  { change ([row_vendor; row_zone; row_ledger] ≡ₚ rev [row_vendor; row_zone; row_ledger]).
    apply Permutation_rev. }
  split_and!; [exact H|vm_compute; reflexivity..|].
  exact (proj1 (proj2 (proj2 (proj2 (proj2 (ranking_stable_sort demo_query _ _ H)))))).
Defined.

(** C5. For a positive [top_k] the ranking returns the first [top_k] entries
    of the sorted list: at most [top_k] of them and never more than there are
    rows; all of them, neither padded nor refused, when [top_k] is not less
    than the number of rows; and the empty list for an empty dataset. *)
Theorem rank_at_most_top_k (q : string) (df : list row) (top_k : Z) :
  0 < top_k →
  ∃ best, rank q df top_k = Returns best
    ∧ best = take (Z.to_nat top_k) (scored q df)
    ∧ Z.of_nat (length best) ≤ top_k
    ∧ (length best ≤ length df)%nat
    ∧ (Z.of_nat (length df) ≤ top_k →
       best = scored q df ∧ length best = length df)
    ∧ (df = [] → best = []).
Proof.
  intros Hk. exists (slice_to (scored q df) top_k).
  assert (Hbest : slice_to (scored q df) top_k = take (Z.to_nat top_k) (scored q df)).
  { unfold slice_to. by rewrite decide_False by lia. }
  pose proof (scored_length q df) as Hlen.
  split_and!; [done|done|..]; rewrite Hbest.
  - rewrite length_take. lia.
  - rewrite length_take. lia.
  - intros Hall. rewrite take_ge by lia. done.
  - intros ->. by destruct (Z.to_nat top_k).
Qed.

Lemma rank_at_most_top_k_witness :
  0 < 2
  ∧ ∃ best, rank demo_query [row_vendor; row_zone; row_ledger] 2 = Returns best
      ∧ shown <$> best = [(20, "Agency Delivery Zone"); (-1, "Vendor Name")].
Proof.
  split; [lia|].
  destruct (rank_at_most_top_k demo_query [row_vendor; row_zone; row_ledger] 2)
    as (best & Hrank & Hbest & _); [lia|].
  exists best. split; [exact Hrank|]. rewrite Hbest. vm_compute. reflexivity.
Defined.

(** ** More on [normalize] *)

Section NormalizeMore.

Implicit Types (s t u v : string) (c : ascii) (b : bool) (text : option string).

Lemma scrub_space c : Char.isspace c = true → scrub c = c.
Proof. by_char c. Qed.

Lemma scrub_wordchar c : Char.isspace (scrub c) = negb (wordchar c).
Proof. by_char c. Qed.

Lemma lower_isspace c : Char.isspace (Char.lower c) = Char.isspace c.
Proof. by_char c. Qed.

Lemma lower_lower c : Char.lower (Char.lower c) = Char.lower c.
Proof. by_char c. Qed.

Lemma scrub_lower_slash c :
  scrub (Char.lower (if decide (c = "/"%char) then " "%char else c))
  = scrub (Char.lower c).
Proof. by_char c. Qed.

Lemma scrub_lower_hyphen c :
  scrub (Char.lower (if decide (c = "-"%char) then " "%char else c))
  = scrub (Char.lower c).
Proof. by_char c. Qed.

Lemma str_map_ext (f g : ascii → ascii) s :
  (∀ c, f c = g c) → Str.map f s = Str.map g s.
Proof. intros H. induction s as [|c s IH]; simpl; [done|]. by rewrite H, IH. Qed.

Lemma lstrip_sub_ws b s :
  Str.lstrip (Str.sub_ws b s) = Str.lstrip (Str.sub_ws false s).
Proof.
  destruct s as [|c s]; [done|]. simpl.
  destruct (Char.isspace c) eqn:Hc; [|done]. by destruct b.
Qed.

Lemma rstrip_lstrip s : Str.rstrip (Str.lstrip s) = Str.lstrip (Str.rstrip s).
Proof.
  induction s as [|c s IH]; [done|]. simpl.
  destruct (Char.isspace c) eqn:Hc; simpl.
  - rewrite IH. destruct (Str.rstrip s) eqn:E; simpl; [done|]. by rewrite Hc.
  - by rewrite Hc.
Qed.

Lemma lstrip_scrubbed u :
  Str.lstrip (Str.sub_ws false (Str.map scrub (Str.lstrip u)))
  = Str.lstrip (Str.sub_ws false (Str.map scrub u)).
Proof.
  induction u as [|c u IH]; [done|]. simpl.
  destruct (Char.isspace c) eqn:Hc; [|done].
  rewrite (scrub_space c Hc), Hc. simpl. by rewrite IH, (lstrip_sub_ws true).
Qed.

Lemma rstrip_cons_congr c s t :
  Str.rstrip s = Str.rstrip t → Str.rstrip (String c s) = Str.rstrip (String c t).
Proof. simpl. by intros ->. Qed.

Lemma rstrip_scrubbed b u :
  Str.rstrip (Str.sub_ws b (Str.map scrub (Str.rstrip u)))
  = Str.rstrip (Str.sub_ws b (Str.map scrub u)).
Proof.
  revert b. induction u as [|c u IH]; intros b; [done|].
  cbn [Str.rstrip].
  destruct (Char.isspace c && Str.is_empty (Str.rstrip u)) eqn:E.
  - apply andb_true_iff in E as [Hc Hr].
    assert (Hu : Str.rstrip u = "") by (by destruct (Str.rstrip u)).
    cbn [Str.map Str.sub_ws]. rewrite (scrub_space c Hc), Hc.
    assert (Ht : Str.rstrip (Str.sub_ws true (Str.map scrub u)) = "").
    { rewrite <- IH, Hu. done. }
    destruct b; simpl; rewrite ?Ht; done.
  - cbn [Str.map Str.sub_ws].
    destruct (Char.isspace (scrub c)); [destruct b|].
    + apply IH.
    + apply rstrip_cons_congr, IH.
    + apply rstrip_cons_congr, IH.
Qed.

(** The first [strip()] of [normalize] changes nothing of the result. *)
Lemma normalize_scrubbed text :
  normalize text
  = Str.strip (Str.sub_ws false (Str.map scrub (Str.lower (or_empty text)))).
Proof.
  rewrite normalize_steps. generalize (Str.lower (or_empty text)). intros u.
  unfold Str.strip.
  rewrite (rstrip_lstrip (Str.sub_ws false _)), rstrip_scrubbed.
  rewrite <- (rstrip_lstrip (Str.sub_ws false _)). by rewrite lstrip_scrubbed.
Qed.

Lemma lstrip_empty s : Str.lstrip s = "" ↔ Str.all Char.isspace s = true.
Proof.
  induction s as [|c s IH]; simpl; [done|].
  destruct (Char.isspace c); simpl; [done|]. split; discriminate.
Qed.

Lemma rstrip_empty s : Str.rstrip s = "" ↔ Str.all Char.isspace s = true.
Proof.
  induction s as [|c s IH]; simpl; [done|].
  destruct (Char.isspace c); simpl.
  - rewrite <- IH. destruct (Str.rstrip s); simpl; split; done.
  - split; discriminate.
Qed.

Lemma all_isspace_lstrip s :
  Str.all Char.isspace (Str.lstrip s) = Str.all Char.isspace s.
Proof.
  induction s as [|c s IH]; simpl; [done|].
  destruct (Char.isspace c) eqn:Hc; simpl; [done|]. by rewrite Hc.
Qed.

Lemma strip_empty s : Str.strip s = "" ↔ Str.all Char.isspace s = true.
Proof. unfold Str.strip. by rewrite rstrip_empty, all_isspace_lstrip. Qed.

Lemma all_isspace_sub_ws b s :
  Str.all Char.isspace (Str.sub_ws b s) = Str.all Char.isspace s.
Proof.
  revert b. induction s as [|c s IH]; intros b; simpl; [done|].
  destruct (Char.isspace c) eqn:Hc; simpl.
  - destruct b; simpl; apply IH.
  - by rewrite Hc.
Qed.

Lemma all_map_iff p f s : Str.all p (Str.map f s) = Str.all (λ c, p (f c)) s.
Proof. induction s as [|c s IH]; simpl; [done|]. by rewrite IH. Qed.

Lemma map_lstrip f s :
  (∀ c, Char.isspace (f c) = Char.isspace c) →
  Str.map f (Str.lstrip s) = Str.lstrip (Str.map f s).
Proof.
  intros Hf. induction s as [|c s IH]; simpl; [done|].
  rewrite Hf. by destruct (Char.isspace c).
Qed.

Lemma map_rstrip f s :
  (∀ c, Char.isspace (f c) = Char.isspace c) →
  Str.map f (Str.rstrip s) = Str.rstrip (Str.map f s).
Proof.
  intros Hf. induction s as [|c s IH]; simpl; [done|].
  rewrite Hf, <- IH. destruct (Char.isspace c); simpl; [|done].
  by destruct (Str.rstrip s).
Qed.

Lemma normalize_map f s :
  (∀ c, scrub (Char.lower (f c)) = scrub (Char.lower c)) →
  normalize (Some (Str.map f s)) = normalize (Some s).
Proof.
  intros Hf. rewrite !normalize_scrubbed. simpl. unfold Str.lower.
  rewrite !map_map. do 2 f_equal. apply str_map_ext. intros c. apply Hf.
Qed.

Lemma normalize_lower s : normalize (Some (Str.lower s)) = normalize (Some s).
Proof. apply normalize_map. intros c. by rewrite lower_lower. Qed.

Lemma normalize_stripped s : normalize (Some (Str.strip s)) = normalize (Some s).
Proof.
  rewrite !normalize_steps. simpl. unfold Str.lower, Str.strip at 3.
  rewrite map_rstrip, map_lstrip by apply lower_isspace.
  fold (Str.strip (Str.map Char.lower s)). by rewrite strip_idem.
Qed.

Lemma normalize_replace_slash s :
  normalize (Some (Str.replace "/" " " s)) = normalize (Some s).
Proof. apply normalize_map, scrub_lower_slash. Qed.

Lemma normalize_replace_hyphen s :
  normalize (Some (Str.replace "-" " " s)) = normalize (Some s).
Proof. apply normalize_map, scrub_lower_hyphen. Qed.

Lemma normalize_twice text : normalize (Some (normalize text)) = normalize text.
Proof.
  apply normalize_fixed;
    auto using normalize_canon, normalize_strip, normalize_sub_ws.
Qed.

End NormalizeMore.

(** X1. A text normalises to the empty string exactly when its lowercased
    form [text.lower()] holds no letter [a-z], no digit and no comma; [None]
    and the empty string are such texts. *)
Theorem normalize_empty_iff (text : option string) :
  normalize text = ""
  ↔ ∀ c, c ∈ list_ascii_of_string (Str.lower (or_empty text)) →
         wordchar c = false.
Proof.
  rewrite normalize_scrubbed, strip_empty, all_isspace_sub_ws.
  rewrite all_map_iff, all_chars.
  split; intros H c Hc; specialize (H c Hc);
    rewrite scrub_wordchar in *; by destruct (wordchar c).
Qed.

(** X2. [normalize] does not see case or surrounding whitespace:
    [normalize(s.lower())] and [normalize(s.strip())] are [normalize(s)]. *)
Theorem normalize_case_and_margin (s : string) :
  normalize (Some (Str.lower s)) = normalize (Some s)
  ∧ normalize (Some (Str.strip s)) = normalize (Some s).
Proof. split; [apply normalize_lower|apply normalize_stripped]. Qed.

(** X3. A slash and a hyphen count as a space: replacing either by a space
    before normalising gives the same text. *)
Theorem normalize_slash_hyphen (s : string) :
  normalize (Some (Str.replace "/" " " s)) = normalize (Some s)
  ∧ normalize (Some (Str.replace "-" " " s)) = normalize (Some s).
Proof. split; [apply normalize_replace_slash|apply normalize_replace_hyphen]. Qed.

(** ** Words, tokens and phrases *)

Section Words.

Implicit Types (s t u v w cur : string) (c : ascii) (b : bool).

Lemma app_nil_r_str s : s +:+ "" = s.
Proof. induction s as [|c s IH]; [done|]. by rewrite app_cons, IH. Qed.

Lemma app_assoc_str s t u : (s +:+ t) +:+ u = s +:+ (t +:+ u).
Proof. induction s as [|c s IH]; [done|]. by rewrite !app_cons, IH. Qed.

Lemma all_app p s t : Str.all p (s +:+ t) = Str.all p s && Str.all p t.
Proof.
  induction s as [|c s IH]; [done|]. rewrite app_cons. simpl.
  by rewrite IH, andb_assoc.
Qed.

Lemma length_app_str s t :
  String.length (s +:+ t) = (String.length s + String.length t)%nat.
Proof. induction s as [|c s IH]; [done|]. rewrite app_cons. simpl. by rewrite IH. Qed.

Lemma startswith_app w t : Str.startswith w (w +:+ t) = true.
Proof.
  induction w as [|c w IH]; [done|]. rewrite app_cons. simpl.
  by rewrite bool_decide_eq_true_2.
Qed.

Lemma contains_startswith w s :
  Str.startswith w s = true → Str.contains w s = true.
Proof. intros H. destruct s; simpl; by rewrite H. Qed.

Lemma contains_app u w t : Str.contains w (u +:+ w +:+ t) = true.
Proof.
  induction u as [|c u IH].
  - rewrite app_empty. apply contains_startswith, startswith_app.
  - rewrite app_cons. simpl. rewrite IH. apply orb_true_r.
Qed.

Lemma startswith_length w s :
  Str.startswith w s = true → (String.length w ≤ String.length s)%nat.
Proof.
  revert s. induction w as [|a w IH]; intros [|b s]; simpl; try done; [lia|].
  intros [_ H]%andb_true_iff. apply IH in H. lia.
Qed.

(** A substring is not longer than the whole. *)
Lemma contains_length w s :
  Str.contains w s = true → (String.length w ≤ String.length s)%nat.
Proof.
  induction s as [|b s IH]; simpl.
  - rewrite orb_false_r. apply startswith_length.
  - intros [H|H]%orb_true_iff; [by apply (startswith_length w (String b s))|].
    apply IH in H. lia.
Qed.

(** The words of [split]: runs of non-whitespace characters found in the
    text. *)
Lemma split_go_words cur s w :
  w ∈ Str.split_go cur s →
  Str.all (λ c, negb (Char.isspace c)) cur = true →
  Str.all (λ c, negb (Char.isspace c)) w = true
  ∧ w ≠ ""
  ∧ ((∃ t, cur +:+ s = w +:+ t) ∨ (∃ u t, s = u +:+ w +:+ t)).
Proof.
  revert cur. induction s as [|c s IH]; intros cur Hw Hcur; simpl in Hw.
  - destruct cur as [|a cur]; simpl in Hw; [by apply elem_of_nil in Hw|].
    apply list_elem_of_singleton in Hw as ->.
    split_and!; [done|done|]. left. by exists "".
  - destruct (Char.isspace c) eqn:Hc.
    + assert (Hrest : w ∈ Str.split_go "" s →
                Str.all (λ c, negb (Char.isspace c)) w = true ∧ w ≠ ""
                ∧ ((∃ t, cur +:+ String c s = w +:+ t)
                   ∨ (∃ u t, String c s = u +:+ w +:+ t))).
      { intros H. destruct (IH "" H) as (H1 & H2 & [[t Ht]|(u & t & Ht)]); [done|..];
          (split_and!; [done|done|right]).
        - exists (String c ""), t. rewrite app_empty in Ht. by rewrite Ht.
        - exists (String c u), t. rewrite app_cons. by rewrite Ht. }
      destruct cur as [|a cur]; simpl in Hw; [by apply Hrest|].
      apply elem_of_cons in Hw as [->|Hw]; [|by apply Hrest].
      split_and!; [done|done|]. left. by eexists.
    + destruct (IH (cur +:+ String c "") Hw) as (H1 & H2 & [[t Ht]|(u & t & Ht)]).
      * rewrite all_app, Hcur. simpl. by rewrite Hc.
      * split_and!; [done|done|]. left. exists t.
        rewrite <- Ht. by rewrite app_assoc_str.
      * split_and!; [done|done|]. right. exists (String c u), t.
        rewrite app_cons. by rewrite Ht.
Qed.

Lemma split_words s w :
  w ∈ Str.split s →
  Str.all (λ c, negb (Char.isspace c)) w = true ∧ w ≠ ""
  ∧ ∃ u t, s = u +:+ w +:+ t.
Proof.
  intros Hw. destruct (split_go_words "" s w Hw) as (H1 & H2 & [[t Ht]|H3]); [done|..];
    (split_and!; [done|done|]); [|done].
  exists "", t. by rewrite app_empty in *.
Qed.

Lemma all_and p q s :
  Str.all p s = true → Str.all q s = true → Str.all (λ c, p c && q c) s = true.
Proof.
  induction s as [|c s IH]; simpl; [done|].
  intros [-> ?]%andb_true_iff [-> ?]%andb_true_iff. simpl. auto.
Qed.

Lemma split_go_nonempty cur s : cur ≠ "" → Str.split_go cur s ≠ [].
Proof.
  revert cur. induction s as [|c s IH]; intros cur Hcur; simpl.
  - by destruct cur.
  - destruct (Char.isspace c); [by destruct cur|].
    apply IH. by destruct cur.
Qed.

Lemma join_cons sep x l :
  l ≠ [] → Str.join sep (x :: l) = x +:+ sep +:+ Str.join sep l.
Proof. by destruct l. Qed.

Lemma rstrip_fixed_tail c s :
  Str.rstrip (String c s) = String c s → Str.rstrip s = s.
Proof.
  simpl. destruct (Char.isspace c && Str.is_empty (Str.rstrip s)); [done|].
  by intros [= ?].
Qed.

(** On a text with single spaces and no trailing whitespace, joining the
    words read after [cur] gives the text back. *)
Lemma join_split_go cur s :
  Str.sub_ws false s = s → Str.rstrip s = s →
  (cur ≠ "" ∨ Str.lstrip s = s) →
  Str.join " " (Str.split_go cur s) = cur +:+ s.
Proof.
  revert cur. induction s as [|c s IH]; intros cur Hws Hr Hstart; simpl.
  - destruct cur; simpl; [done|]. by rewrite app_nil_r_str.
  - pose proof (rstrip_fixed_tail c s Hr) as Hr'.
    apply sub_ws_false_fixed in Hws as [(Hc & -> & Hws)|[Hc Hws]]; rewrite Hc.
    + destruct Hstart as [Hcur|Hlead];
        [|apply lstrip_fixed in Hlead; congruence].
      destruct s as [|d s].
      { simpl in Hr. discriminate. }
      pose proof (sub_ws_true_fixed d s Hws) as [Hd Hws'].
      assert (Hs : Str.sub_ws false (String d s) = String d s)
        by (simpl; by rewrite Hd, Hws').
      assert (Hl : Str.lstrip (String d s) = String d s)
        by (simpl; by rewrite Hd).
      destruct cur as [|a cur]; [done|]. cbn [Str.is_empty].
      rewrite join_cons.
      * rewrite (IH "" Hs Hr') by (by right). by rewrite app_empty.
      * simpl. rewrite Hd. by apply split_go_nonempty.
    + rewrite (IH (cur +:+ String c "") Hws Hr').
      * by rewrite app_assoc_str.
      * left. by destruct cur.
Qed.

Lemma all_split_on sep s w :
  w ∈ Str.split_on sep s → Str.all (λ c, negb (bool_decide (c = sep))) w = true.
Proof.
  revert w. induction s as [|c s IH]; intros w; simpl.
  - by intros ->%list_elem_of_singleton.
  - destruct (decide (c = sep)) as [->|Hc].
    + intros [->|Hw]%elem_of_cons; [done|auto].
    + destruct (Str.split_on sep s) as [|x l] eqn:E.
      * intros ->%list_elem_of_singleton. simpl.
        by rewrite bool_decide_eq_false_2.
      * intros [->|Hw]%elem_of_cons.
        -- simpl. rewrite bool_decide_eq_false_2 by done. simpl.
           apply IH. by constructor.
        -- apply IH. by constructor.
Qed.

Lemma all_sub_ws_gen (p : ascii → bool) b s :
  p " "%char = true → Str.all p s = true → Str.all p (Str.sub_ws b s) = true.
Proof.
  intros Hsp. revert b. induction s as [|c s IH]; intros b; simpl; [done|].
  intros [Hc Hs]%andb_true_iff.
  destruct (Char.isspace c); [destruct b|]; simpl.
  - by apply IH.
  - rewrite Hsp. by apply IH.
  - rewrite Hc. by apply IH.
Qed.

Lemma scrub_lower_comma c : c ≠ ","%char → scrub (Char.lower c) ≠ ","%char.
Proof. by_char c. Qed.

Lemma normalize_no_comma s :
  Str.all (λ c, negb (bool_decide (c = ","%char))) s = true →
  Str.all (λ c, negb (bool_decide (c = ","%char))) (normalize (Some s)) = true.
Proof.
  intros Hs. rewrite normalize_scrubbed. simpl.
  apply all_strip, all_sub_ws_gen; [done|]. unfold Str.lower.
  rewrite map_map, all_map_iff. rewrite all_chars in *. intros c Hc.
  specialize (Hs c Hc). apply negb_true_iff, bool_decide_eq_false in Hs.
  apply negb_true_iff, bool_decide_eq_false. by apply scrub_lower_comma.
Qed.

End Words.

(** X4. On a normalised text [split] and [" ".join] are inverse: joining
    the whitespace-separated words of [normalize(text)] with single spaces
    gives [normalize(text)] back. *)
Theorem normalize_split_join (text : option string) :
  Str.join " " (Str.split (normalize text)) = normalize text.
Proof.
  unfold Str.split. rewrite join_split_go; [done|apply normalize_sub_ws|..].
  - pose proof (strip_rstrip (normalize text)) as H.
    by rewrite normalize_strip in H.
  - right. pose proof (strip_lstrip (normalize text)) as H.
    by rewrite normalize_strip in H.
Qed.

(** X5. Every token of a text has at least three characters, all of them
    lowercase letters, digits or commas (a comma stays attached to its
    word), is no stopword, and occurs in the normalised text. *)
Theorem tokenize_tokens (text : option string) (w : string) :
  w ∈ tokenize text →
  3 ≤ Str.len w
  ∧ (w ∉ STOPWORDS)
  ∧ Str.all wordchar w = true
  ∧ Str.contains w (normalize text) = true.
Proof.
  intros Hw. unfold tokenize in Hw.
  rewrite elem_of_list_to_set, list_elem_of_filter in Hw.
  destruct Hw as [[Hlen Hstop] Hsplit].
  apply split_words in Hsplit as (Hns & _ & u & t & Hnorm).
  split_and!; [done|done| |].
  - pose proof (normalize_canon text) as Hcanon.
    rewrite Hnorm, !all_app in Hcanon.
    apply andb_true_iff in Hcanon as [_ [Hcanon _]%andb_true_iff].
    rewrite all_chars in *. intros c Hc.
    specialize (Hns c Hc). specialize (Hcanon c Hc).
    apply canonchar_spec in Hcanon.
    destruct Hcanon as [H|[H|[-> | ->]]]; unfold wordchar; rewrite ?H; try done.
    by rewrite orb_true_r.
  - rewrite Hnorm. apply contains_app.
Qed.

Lemma tokenize_tokens_witness :
  "agency" ∈ tokenize (Some demo_query)
  ∧ Str.contains "agency" (normalize (Some demo_query)) = true.
Proof.
  assert (H : "agency" ∈ tokenize (Some demo_query)).
  { unfold tokenize. rewrite elem_of_list_to_set, list_elem_of_filter.
    split; [split; [done|by vm_compute]|].
    vm_compute Str.split.
    repeat (first [apply list_elem_of_here | apply list_elem_of_further]). }
  split; [exact H|]. exact (proj2 (proj2 (proj2 (tokenize_tokens _ _ H)))).
Defined.

(** X6. [tokenize] sees a text through [normalize] only: tokenising the
    normalised text, the lowercased text or the text with slashes and hyphens
    replaced by spaces gives the same tokens. *)
Theorem tokenize_invariant (text : option string) (s : string) :
  tokenize (Some (normalize text)) = tokenize text
  ∧ tokenize (Some (Str.lower s)) = tokenize (Some s)
  ∧ tokenize (Some (Str.replace "/" " " s)) = tokenize (Some s)
  ∧ tokenize (Some (Str.replace "-" " " s)) = tokenize (Some s).
Proof.
  unfold tokenize.
  by rewrite normalize_twice, normalize_lower, normalize_replace_slash,
    normalize_replace_hyphen.
Qed.

(** X7. Every phrase of [phrase_list] is a normalised text of at least three
    characters without a comma; so it is never empty, and the test [phr and]
    of [score_row] never fails. *)
Theorem phrase_list_phrases (synonyms : option string) (p : string) :
  p ∈ phrase_list synonyms →
  normalize (Some p) = p
  ∧ 3 ≤ Str.len p
  ∧ p ≠ ""
  ∧ Str.all (λ c, wordchar c && negb (bool_decide (c = ","%char))
                  || bool_decide (c = " "%char)) p = true.
Proof.
  unfold phrase_list. simpl. rewrite app_nil_r.
  intros [Hlen (x & -> & Hx)%list_elem_of_fmap]%list_elem_of_filter.
  split_and!; [apply normalize_twice|done| |].
  - intros E. rewrite E in Hlen. vm_compute in Hlen. done.
  - apply all_split_on, normalize_no_comma in Hx.
    pose proof (normalize_canon (Some x)) as Hcanon.
    rewrite all_chars in *. intros c Hc.
    specialize (Hx c Hc). specialize (Hcanon c Hc).
    unfold canonchar in Hcanon. rewrite Hx, andb_true_r. done.
Qed.

Lemma phrase_list_phrases_witness :
  "delivery zone" ∈ phrase_list (Some "Delivery-Zone, zone code")
  ∧ normalize (Some "delivery zone") = "delivery zone".
Proof.
  assert (H : "delivery zone" ∈ phrase_list (Some "Delivery-Zone, zone code")).
  { vm_compute phrase_list. by constructor. }
  split; [exact H|]. exact (proj1 (phrase_list_phrases _ _ H)).
Defined.

(** ** More on [score_row] *)

Section ScoreMore.

Implicit Types (q_norm : string) (q_tokens : gset string) (r : row).

Lemma startswith_inv w s : Str.startswith w s = true → ∃ t, s = w +:+ t.
Proof.
  revert s. induction w as [|a w IH]; intros s; simpl.
  - intros _. by exists s.
  - destruct s as [|b s]; [done|].
    intros [->%bool_decide_eq_true [t ->]%IH]%andb_true_iff. by exists t.
Qed.

Lemma contains_inv w s : Str.contains w s = true → ∃ u t, s = u +:+ w +:+ t.
Proof.
  induction s as [|b s IH]; simpl.
  - rewrite orb_false_r. intros [t ->]%startswith_inv. by exists "", t.
  - intros [[t Ht]%startswith_inv|(u & t & ->)%IH]%orb_true_iff.
    + by exists "", t.
    + by exists (String b u), t.
Qed.

(** A substring of a substring is a substring. *)
Lemma contains_trans a b s :
  Str.contains a b = true → Str.contains b s = true → Str.contains a s = true.
Proof.
  intros (u & t & ->)%contains_inv (u' & t' & ->)%contains_inv.
  replace (u' +:+ (u +:+ a +:+ t) +:+ t') with ((u' +:+ u) +:+ a +:+ (t +:+ t'))
    by (by rewrite !app_assoc_str).
  apply contains_app.
Qed.

Lemma contains_absorb a b s :
  Str.contains a b = true → Str.contains a s || Str.contains b s = Str.contains a s.
Proof.
  intros Hab. destruct (Str.contains b s) eqn:Hb; [|apply orb_false_r].
  by rewrite (contains_trans a b s Hab Hb).
Qed.

Lemma contains_empty_hay w : w ≠ "" → Str.contains w "" = false.
Proof. by destruct w. Qed.

Lemma syn_phrase_hit_cases q_norm r :
  syn_phrase_hit q_norm r = 0
  ∨ ∃ p, p ∈ phrase_list (Some (row_get r COL_SYNONYMS ""))
         ∧ phrase_hit q_norm p
         ∧ syn_phrase_hit q_norm r = phrase_pts p.
Proof.
  destruct (foldl_phrase_step q_norm
              (phrase_list (Some (row_get r COL_SYNONYMS ""))) 0)
    as (_ & _ & H). exact H.
Qed.

Lemma syn_phrase_hit_range q_norm r :
  syn_phrase_hit q_norm r = 0
  ∨ 8 ≤ syn_phrase_hit q_norm r ≤ 8 + Str.len q_norm `div` 10.
Proof.
  destruct (syn_phrase_hit_cases q_norm r) as [H|(p & _ & [_ Hp] & ->)]; [by left|].
  right. unfold phrase_pts, Str.len. apply contains_length in Hp.
  assert (0 ≤ Z.of_nat (String.length p) `div` 10) by (apply Z.div_pos; lia).
  assert (Z.of_nat (String.length p) `div` 10 ≤ Z.of_nat (String.length q_norm) `div` 10)
    by (apply Z.div_le_mono; lia).
  lia.
Qed.

Lemma tokenize_nan : tokenize (Some (normalize (Some "nan"))) = {[ "nan" ]}.
Proof. vm_compute. reflexivity. Qed.

Lemma size_inter_singleton (X : gset string) (x : string) :
  size (X ∩ {[ x ]}) = if decide (x ∈ X) then 1%nat else 0%nat.
Proof.
  destruct (decide (x ∈ X)) as [Hx|Hx].
  - assert (X ∩ {[ x ]} = {[ x ]}) as ->; [|apply size_singleton].
    apply set_eq. intros y. rewrite elem_of_intersection, elem_of_singleton.
    split; [by intros [_ ?]|by intros ->].
  - assert (X ∩ {[ x ]} = ∅) as ->; [|apply size_empty].
    apply set_eq. intros y.
    rewrite elem_of_intersection, elem_of_singleton, elem_of_empty.
    split; [intros [Hy ->]; done|done].
Qed.

Lemma phrase_list_nan : phrase_list (Some "nan") = ["nan"].
Proof. vm_compute. reflexivity. Qed.

Lemma row_get_some r col v dflt : r !! col = Some v → row_get r col dflt = v.
Proof. unfold row_get. by intros ->. Qed.

End ScoreMore.

(** X8. The three entries of the explanation and the score stay in fixed
    ranges: the phrase points are 0 or between 8 and [8 + len(q_norm) // 10],
    the token points are 0, 2, 4 or 6, the entity bonus is 0 or 4, and the
    score lies between -1 and [18 + len(q_norm) // 10]. *)
Theorem score_row_ranges (q_norm : string) (q_tokens : gset string) (r : row) :
  let res := score_row q_norm q_tokens r in
  ∃ syn tok bonus,
    res.2 !! "syn_phrase_hit" = Some syn
    ∧ res.2 !! "token_overlap" = Some tok
    ∧ res.2 !! "entity_bonus" = Some bonus
    ∧ (syn = 0 ∨ 8 ≤ syn ≤ 8 + Str.len q_norm `div` 10)
    ∧ (tok = 0 ∨ tok = 2 ∨ tok = 4 ∨ tok = 6)
    ∧ (bonus = 0 ∨ bonus = 4)
    ∧ -1 ≤ res.1 ≤ 18 + Str.len q_norm `div` 10.
Proof.
  intros res. subst res.
  destruct (score_row_result q_norm q_tokens r) as (Hs & Ht & _ & H).
  pose proof (syn_phrase_hit_range q_norm r) as Hsyn.
  assert (Htok : token_overlap q_tokens r = 0 ∨ token_overlap q_tokens r = 2
                 ∨ token_overlap q_tokens r = 4 ∨ token_overlap q_tokens r = 6).
  { unfold token_overlap. lia. }
  assert (0 ≤ Str.len q_norm `div` 10) by (apply Z.div_pos; unfold Str.len; lia).
  exists (syn_phrase_hit q_norm r), (token_overlap q_tokens r).
  destruct (first_hint ENTITY_HINTS q_norm) as [[ent ws]|];
    [destruct (decide (ent = entity_of r))|]; destruct H as [Hscore Hb];
    [exists 4|exists 0|exists 0]; (split_and!; [done|done|done|done|done|lia|lia|lia]).
Qed.

(** X9. An empty cell of the sheet reaches [score_row] as the text "nan"
    (pandas reads it as NaN, and [str] is applied to it).  A row whose
    synonyms, common, keyword and report cells are such earns 8 phrase
    points exactly when "nan" occurs in the normalised query (as in
    "finance"), and 2 token points exactly when "nan" is a token of the
    query; otherwise none. *)
Theorem score_row_nan_cells (q_norm : string) (q_tokens : gset string) (r : row) :
  r !! COL_SYNONYMS = Some "nan" → r !! COL_COMMON = Some "nan" →
  r !! COL_KEYWORD = Some "nan" → r !! COL_REPORT = Some "nan" →
  let res := score_row q_norm q_tokens r in
  res.2 !! "syn_phrase_hit" = Some (if Str.contains "nan" q_norm then 8 else 0)
  ∧ res.2 !! "token_overlap" = Some (if decide ("nan" ∈ q_tokens) then 2 else 0).
Proof.
  intros Hsyn Hcom Hkey Hrep res. subst res.
  destruct (score_row_result q_norm q_tokens r) as (Hs & Ht & _).
  assert (Es : syn_phrase_hit q_norm r = if Str.contains "nan" q_norm then 8 else 0).
  { unfold syn_phrase_hit. rewrite (row_get_some r _ "nan" "" Hsyn), phrase_list_nan.
    cbn [foldl]. unfold phrase_step.
    by destruct (Str.contains "nan" q_norm). }
  assert (Et : token_overlap q_tokens r = if decide ("nan" ∈ q_tokens) then 2 else 0).
  { unfold token_overlap.
    rewrite (row_get_some r _ "nan" "" Hcom), (row_get_some r _ "nan" "" Hkey),
      (row_get_some r _ "nan" "" Hrep).
    rewrite tokenize_nan, !(idemp_L (∪)), size_inter_singleton.
    by destruct (decide ("nan" ∈ q_tokens)). }
  by rewrite Hs, Ht, Es, Et.
Qed.

Lemma score_row_nan_cells_witness :
  let r : row := {[ COL_COMMON := "nan"; COL_KEYWORD := "nan"; COL_REPORT := "nan";
                    COL_FULLKEY := "Vendor.Fax"; COL_ENTITY := "Vendors";
                    COL_CANON := "fax"; COL_SYNONYMS := "nan" ]} in
  let q := "Where is the finance nan report?" in
  r !! COL_SYNONYMS = Some "nan"
  ∧ (score_row (normalize (Some q)) (tokenize (Some q)) r).2 !! "syn_phrase_hit"
    = Some 8
  ∧ (score_row (normalize (Some q)) (tokenize (Some q)) r).2 !! "token_overlap"
    = Some 2.
Proof.
  intros r q.
  assert (H1 : r !! COL_SYNONYMS = Some "nan") by (vm_compute; reflexivity).
  assert (H2 : r !! COL_COMMON = Some "nan") by (vm_compute; reflexivity).
  assert (H3 : r !! COL_KEYWORD = Some "nan") by (vm_compute; reflexivity).
  assert (H4 : r !! COL_REPORT = Some "nan") by (vm_compute; reflexivity).
  split; [exact H1|].
  destruct (score_row_nan_cells (normalize (Some q)) (tokenize (Some q)) r
              H1 H2 H3 H4) as [Hs Ht].
  split; [rewrite Hs|rewrite Ht]; vm_compute; reflexivity.
Defined.

(** X10. The bonus of 4 is only ever given to a row whose normalised entity
    cell is one of the five tags of [ENTITY_HINTS], and then that tag's group
    is the first one with a trigger in the query. *)
Theorem entity_bonus_needs_tag (q_norm : string) (q_tokens : gset string) (r : row) :
  (score_row q_norm q_tokens r).2 !! "entity_bonus" = Some 4 →
  entity_of r ∈ ["agency"; "donors"; "vendors"; "items"; "ledger"]
  ∧ ∃ words, first_hint ENTITY_HINTS q_norm = Some (entity_of r, words)
             ∧ any_in q_norm words = true.
Proof.
  intros Hb.
  destruct (score_row_result q_norm q_tokens r) as (_ & _ & _ & H).
  destruct (first_hint ENTITY_HINTS q_norm) as [[ent ws]|] eqn:E;
    [destruct (decide (ent = entity_of r)) as [<-|]|];
    destruct H as [_ Hb']; rewrite Hb in Hb'; try discriminate.
  apply first_hint_fires in E as [Hin Hfire].
  split; [|by exists ws].
  change (ent ∈ ENTITY_HINTS.*1). apply list_elem_of_fmap. by exists (ent, ws).
Qed.

Lemma entity_bonus_needs_tag_witness :
  (score_row (normalize (Some demo_query)) (tokenize (Some demo_query)) row_zone).2
    !! "entity_bonus" = Some 4
  ∧ entity_of row_zone ∈ ["agency"; "donors"; "vendors"; "items"; "ledger"].
Proof.
  assert (H : (score_row (normalize (Some demo_query)) (tokenize (Some demo_query))
                 row_zone).2 !! "entity_bonus" = Some 4)
    by (vm_compute; reflexivity).
  split; [exact H|]. exact (proj1 (entity_bonus_needs_tag _ _ _ H)).
Defined.

(** X11. [score_row] never reads the full-key and canonical-field cells:
    setting or removing them changes neither the score nor the
    explanation. *)
Theorem score_row_ignores_key_and_canon
    (q_norm : string) (q_tokens : gset string) (r : row) (v : string) :
  score_row q_norm q_tokens (<[COL_FULLKEY := v]> r) = score_row q_norm q_tokens r
  ∧ score_row q_norm q_tokens (<[COL_CANON := v]> r) = score_row q_norm q_tokens r
  ∧ score_row q_norm q_tokens (delete COL_FULLKEY r) = score_row q_norm q_tokens r
  ∧ score_row q_norm q_tokens (delete COL_CANON r) = score_row q_norm q_tokens r.
Proof.
  unfold score_row, row_get.
  split_and!; by rewrite ?lookup_insert_ne, ?lookup_delete_ne by done.
Qed.

(** X12. Triggers are looked for as substrings, so a trigger that contains
    another trigger of its group adds nothing: for every query the donors
    group fires just when "donor" occurs, the vendors group when "vendor" or
    "supplier" does, the items group when "item", "product" or "sku" does,
    and the ledger group when "gl", "g/l", "ledger" or "journal" does. *)
Theorem longer_triggers_redundant (q_norm : string) :
  fires q_norm <$> ENTITY_HINTS
  = [ Str.contains "agency" q_norm || Str.contains "agencies" q_norm;
      Str.contains "donor" q_norm;
      Str.contains "vendor" q_norm || Str.contains "supplier" q_norm;
      Str.contains "item" q_norm || Str.contains "product" q_norm
        || Str.contains "sku" q_norm;
      Str.contains "gl" q_norm || Str.contains "g/l" q_norm
        || Str.contains "ledger" q_norm || Str.contains "journal" q_norm ].
Proof.
  unfold ENTITY_HINTS, fires, any_in. cbn [fmap list_fmap existsb snd].
  pose proof (contains_absorb "donor" "donors" q_norm eq_refl) as Hd.
  pose proof (contains_absorb "vendor" "vendors" q_norm eq_refl) as Hv.
  pose proof (contains_absorb "supplier" "suppliers" q_norm eq_refl) as Hs.
  pose proof (contains_absorb "item" "items" q_norm eq_refl) as Hi.
  pose proof (contains_absorb "ledger" "general ledger" q_norm eq_refl) as Hl.
  rewrite !orb_false_r.
  assert (Ev : Str.contains "vendor" q_norm
               || (Str.contains "vendors" q_norm
                   || (Str.contains "supplier" q_norm
                       || Str.contains "suppliers" q_norm))
               = Str.contains "vendor" q_norm || Str.contains "supplier" q_norm).
  { destruct (Str.contains "vendor" q_norm), (Str.contains "vendors" q_norm),
      (Str.contains "supplier" q_norm), (Str.contains "suppliers" q_norm);
      simpl in *; congruence. }
  assert (Ei : Str.contains "item" q_norm
               || (Str.contains "items" q_norm
                   || (Str.contains "product" q_norm || Str.contains "sku" q_norm))
               = Str.contains "item" q_norm || Str.contains "product" q_norm
                 || Str.contains "sku" q_norm).
  { destruct (Str.contains "item" q_norm), (Str.contains "items" q_norm),
      (Str.contains "product" q_norm), (Str.contains "sku" q_norm);
      simpl in *; congruence. }
  assert (El : Str.contains "gl" q_norm
               || (Str.contains "g/l" q_norm
                   || (Str.contains "ledger" q_norm
                       || (Str.contains "general ledger" q_norm
                           || Str.contains "journal" q_norm)))
               = Str.contains "gl" q_norm || Str.contains "g/l" q_norm
                 || Str.contains "ledger" q_norm || Str.contains "journal" q_norm).
  { destruct (Str.contains "gl" q_norm), (Str.contains "g/l" q_norm),
      (Str.contains "ledger" q_norm), (Str.contains "general ledger" q_norm),
      (Str.contains "journal" q_norm); simpl in *; congruence. }
  by rewrite Hd, Ev, Ei, El.
Qed.

(** ** More on the ranking *)

Section RankingMore.

Implicit Types (q : string) (df : list row) (top_k : Z).

Lemma sorted_app_le {A} (R : A → A → Prop) (l1 l2 : list A) x y :
  StronglySorted R (l1 ++ l2) → x ∈ l1 → y ∈ l2 → R x y.
Proof.
  induction l1 as [|a l1 IH]; simpl; intros Hs Hx Hy.
  - by apply elem_of_nil in Hx.
  - apply StronglySorted_inv in Hs as [Hs Ha].
    apply elem_of_cons in Hx as [->|Hx]; [|by apply IH].
    rewrite Forall_forall in Ha. apply Ha. apply elem_of_app. by right.
Qed.

Lemma slice_to_take {A} (l : list A) (k : Z) :
  ∃ n, slice_to l k = take n l ∧ (0 ≤ k → n = Z.to_nat k).
Proof.
  unfold slice_to. destruct (decide (k < 0)).
  - eexists. split; [done|lia].
  - by eexists.
Qed.

Lemma scored_entry q df x :
  x ∈ scored q df →
  x.2 ∈ df ∧ x.1 = score_row (normalize (Some q)) (tokenize (Some q)) x.2.
Proof.
  rewrite scored_perm, score_rows_map.
  intros (r & -> & Hr)%list_elem_of_fmap. simpl. split; [done|].
  by destruct (score_row _ _ r).
Qed.

Lemma filter_head {A} (P : A → Prop) `{∀ x, Decision (P x)} (l : list A) x t :
  filter P l = x :: t →
  ∃ pre post, l = pre ++ x :: post ∧ (∀ y, y ∈ pre → ¬ P y).
Proof.
  induction l as [|a l IH]; [done|]. rewrite filter_cons.
  destruct (decide (P a)) as [Ha|Ha].
  - intros [= -> _]. exists [], l. split; [done|]. intros y Hy.
    by apply elem_of_nil in Hy.
  - intros (pre & post & -> & Hpre)%IH. exists (a :: pre), post.
    split; [done|]. intros y [->|Hy]%elem_of_cons; auto.
Qed.

Lemma sort_desc_same_key {A} (key : A → Z) (v : Z) (l : list A) :
  (∀ x, x ∈ l → key x = v) → sort_desc key l = l.
Proof.
  induction l as [|x l IH]; intros Hkey; simpl; [done|].
  rewrite IH by (intros y Hy; apply Hkey; by constructor).
  destruct l as [|y l]; simpl; [done|].
  rewrite decide_False; [done|].
  rewrite (Hkey x), (Hkey y) by (repeat constructor). lia.
Qed.

Lemma tokenize_blank q : normalize (Some q) = "" → tokenize (Some q) = ∅.
Proof. unfold tokenize. by intros ->. Qed.

Lemma score_row_blank_query (r : row) : score_row "" ∅ r = (0, no_points).
Proof.
  assert (Es : syn_phrase_hit "" r = 0).
  { destruct (syn_phrase_hit_cases "" r) as [H|(p & _ & [Hp Hc] & _)]; [done|].
    by rewrite contains_empty_hay in Hc. }
  assert (Et : token_overlap ∅ r = 0).
  { unfold token_overlap. by rewrite (left_absorb_L ∅ (∩)), size_empty. }
  rewrite score_row_parts, entity_loop_first, Es, Et.
  assert (first_hint ENTITY_HINTS "" = None) as -> by (by vm_compute).
  reflexivity.
Qed.

End RankingMore.

(** X13. Whatever [top_k] is, the entries returned are a front part of the
    sorted list: none of the entries left out scores above a returned one,
    and every returned entry is a row of the dataset with the score and
    explanation [score_row] gives it. *)
Theorem rank_returns_top (q : string) (df : list row) (top_k : Z) :
  ∃ best rest,
    rank q df top_k = Returns best
    ∧ scored q df = best ++ rest
    ∧ (∀ x y, x ∈ best → y ∈ rest → score_of y ≤ score_of x)
    ∧ (∀ x, x ∈ best →
            x.2 ∈ df
            ∧ x.1 = score_row (normalize (Some q)) (tokenize (Some q)) x.2).
Proof.
  destruct (slice_to_take (scored q df) top_k) as (n & Hn & _).
  exists (take n (scored q df)), (drop n (scored q df)).
  assert (Hsplit : scored q df = take n (scored q df) ++ drop n (scored q df))
    by (by rewrite take_drop).
  split_and!.
  - unfold rank. by rewrite Hn.
  - done.
  - intros x y Hx Hy.
    apply (sorted_app_le (λ a b, score_of b ≤ score_of a)
             (take n (scored q df)) (drop n (scored q df)) x y); [|done..].
    rewrite <- Hsplit. apply sort_desc_sorted.
  - intros x Hx. apply scored_entry. rewrite Hsplit. apply elem_of_app. by left.
Qed.

(** X14. A larger [top_k] only adds entries at the end: for
    [0 <= k <= k'] the result for [k] is a prefix of the result for [k']. *)
Theorem rank_prefix (q : string) (df : list row) (k k' : Z) :
  0 ≤ k → k ≤ k' →
  ∃ best more, rank q df k = Returns best ∧ rank q df k' = Returns (best ++ more).
Proof.
  intros Hk Hk'. unfold rank, slice_to. rewrite !decide_False by lia.
  exists (take (Z.to_nat k) (scored q df)),
         (drop (Z.to_nat k) (take (Z.to_nat k') (scored q df))).
  split; [done|]. f_equal.
  rewrite <- (take_drop (Z.to_nat k) (take (Z.to_nat k') (scored q df))) at 1.
  f_equal. rewrite take_take. f_equal. lia.
Qed.

Lemma rank_prefix_witness :
  0 ≤ 1 ∧ 1 ≤ 2
  ∧ outcome_map (fmap shown) (rank demo_query [row_vendor; row_zone; row_ledger] 1)
    = Returns [(20, "Agency Delivery Zone")]
  ∧ outcome_map (fmap shown) (rank demo_query [row_vendor; row_zone; row_ledger] 2)
    = Returns [(20, "Agency Delivery Zone"); (-1, "Vendor Name")].
Proof.
  destruct (rank_prefix demo_query [row_vendor; row_zone; row_ledger] 1 2)
    as (best & more & H1 & H2); [lia..|].
  split_and!; [lia|lia|vm_compute; reflexivity..].
Defined.

(** X15. For a dataset that is not empty the first entry of the ranking is
    the first row of the dataset among those of greatest score: every row
    before it scores strictly less and no row after it scores more. *)
Theorem top_entry_is_first_best (q : string) (df : list row) :
  df ≠ [] →
  let score r := (score_row (normalize (Some q)) (tokenize (Some q)) r).1 in
  ∃ x rest pre post,
    scored q df = x :: rest
    ∧ df = pre ++ x.2 :: post
    ∧ score_of x = score x.2
    ∧ (∀ r, r ∈ pre → score r < score x.2)
    ∧ (∀ r, r ∈ post → score r ≤ score x.2).
Proof.
  intros Hdf score.
  destruct (scored q df) as [|x rest] eqn:E.
  { apply (f_equal length) in E. rewrite scored_length in E. by destruct df. }
  pose proof (sort_desc_sorted score_of
    (score_rows (normalize (Some q)) (tokenize (Some q)) df)) as Hsorted.
  pose proof (sort_desc_stable score_of (score_of x)
    (score_rows (normalize (Some q)) (tokenize (Some q)) df)) as Hstable.
  fold (scored q df) in Hsorted, Hstable. rewrite E in Hsorted, Hstable.
  apply StronglySorted_inv in Hsorted as [_ Hrest]. rewrite Forall_forall in Hrest.
  rewrite filter_cons_True in Hstable by done. symmetry in Hstable.
  apply filter_head in Hstable as (pre' & post' & Hrows & Hpre).
  rewrite score_rows_map in Hrows.
  apply fmap_app_inv in Hrows as (pre & post0 & -> & Hpost & ->).
  destruct post0 as [|r post]; [done|]. injection Hpost as -> ->.
  assert (Hle : ∀ r', r' ∈ pre ++ r :: post → score r' ≤ score r).
  { intros r' Hr'.
    assert (Hin : ((score_row (normalize (Some q)) (tokenize (Some q)) r').1,
                   (score_row (normalize (Some q)) (tokenize (Some q)) r').2, r')
                  ∈ scored q (pre ++ r :: post)).
    { rewrite scored_perm, score_rows_map. apply list_elem_of_fmap. by exists r'. }
    rewrite E in Hin. apply elem_of_cons in Hin as [Hin|Hin].
    - injection Hin as _ _ ->. done.
    - apply (Hrest _ Hin). }
  exists ((score_row (normalize (Some q)) (tokenize (Some q)) r).1,
          (score_row (normalize (Some q)) (tokenize (Some q)) r).2, r),
         rest, pre, post.
  split_and!; [done..| |].
  - intros r' Hr'.
    assert (score r' ≤ score r) by (apply Hle, elem_of_app; by left).
    assert (score r' ≠ score r).
    { intros Heq. eapply Hpre; [apply list_elem_of_fmap; by exists r'|exact Heq]. }
    simpl. lia.
  - intros r' Hr'. apply Hle, elem_of_app. right. by constructor.
Qed.

Lemma top_entry_is_first_best_witness :
  [row_vendor; row_ledger; row_zone] ≠ []
  ∧ shown <$> scored demo_query [row_vendor; row_ledger; row_zone]
    = [(20, "Agency Delivery Zone"); (-1, "Vendor Name"); (-1, "Account Balance")].
Proof.
  assert (H : [row_vendor; row_ledger; row_zone] ≠ []) by done.
  split; [exact H|].
  destruct (top_entry_is_first_best demo_query _ H) as (x & _).
  vm_compute. reflexivity.
Defined.

(** X16. A question without any letter, digit or comma (its normalised form
    is empty) gives every row the score 0 and an all-zero explanation, so the
    ranking is the dataset in its own order and the result its first
    [top_k] rows. *)
Theorem rank_blank_query (q : string) (df : list row) (top_k : Z) :
  normalize (Some q) = "" → 0 ≤ top_k →
  scored q df = (λ r, (0, no_points, r)) <$> df
  ∧ rank q df top_k
    = Returns ((λ r, (0, no_points, r)) <$> take (Z.to_nat top_k) df).
Proof.
  intros Hq Hk.
  assert (Hscored : scored q df = (λ r, (0, no_points, r)) <$> df).
  { unfold scored. rewrite (tokenize_blank q Hq), Hq, score_rows_map.
    erewrite (list_fmap_ext _ (λ r, (0, no_points, r))).
    - apply (sort_desc_same_key score_of 0).
      by intros x (r & -> & _)%list_elem_of_fmap.
    - intros i r _. by rewrite score_row_blank_query. }
  split; [done|]. unfold rank, slice_to.
  rewrite decide_False by lia. by rewrite Hscored, fmap_take.
Qed.

Lemma rank_blank_query_witness :
  normalize (Some "?! - /") = "" ∧ 0 ≤ 2
  ∧ outcome_map (fmap shown) (rank "?! - /" [row_vendor; row_zone; row_ledger] 2)
    = Returns [(0, "Vendor Name"); (0, "Agency Delivery Zone")].
Proof.
  assert (H : normalize (Some "?! - /") = "") by (vm_compute; reflexivity).
  split_and!; [exact H|lia|].
  destruct (rank_blank_query "?! - /" [row_vendor; row_zone; row_ledger] 2 H)
    as [_ ->]; [lia|].
  vm_compute. reflexivity.
Defined.

(** ** The page *)

Section Page.

Implicit Types (df : dataframe) (q : string) (top_k : Z) (r : row)
  (out : list widget) (best : list entry).

Lemma filter_nil_forall {A} (P : A → Prop) `{∀ x, Decision (P x)} (l : list A) :
  filter P l = [] ↔ ∀ x, x ∈ l → ¬ P x.
Proof.
  induction l as [|a l IH].
  - split; [|done]. intros _ x Hx. by apply elem_of_nil in Hx.
  - rewrite filter_cons. destruct (decide (P a)) as [Ha|Ha].
    + split; [done|]. intros Hall. destruct (Hall a); [constructor|done].
    + rewrite IH. split.
      * intros Hall x [->|Hx]%elem_of_cons; auto.
      * intros Hall x Hx. apply Hall. by constructor.
Qed.

Lemma missing_cols_nil df :
  missing_cols df = [] ↔ ∀ c, c ∈ required_cols → c ∈ df_columns df.
Proof.
  unfold missing_cols. rewrite filter_nil_forall.
  split; intros Hall c Hc; specialize (Hall c Hc).
  - by destruct (decide (c ∈ df_columns df)).
  - auto.
Qed.

Lemma elem_of_take_elem {A} (x : A) n (l : list A) : x ∈ take n l → x ∈ l.
Proof. intros (i & Hi & _)%elem_of_take. by eapply list_elem_of_lookup_2. Qed.

Lemma results_not_stopped q rows top_k out :
  (results q rows top_k out).2 ≠ Stopped.
Proof.
  unfold results. destruct (rank q rows top_k) as [best|e]; [|done].
  destruct (show_matches 1 best _) as [out' [e|]]; [done|].
  destruct (best_row best) as [r|e]; [|done].
  by destruct (answer_text r).
Qed.

Lemma row_item_present r col v : r !! col = Some v → row_item r col = inr v.
Proof. unfold row_item. by intros ->. Qed.

Lemma match_block_printable rank r :
  printable r →
  match_block rank r
  = inr (block_text rank (row_get r COL_COMMON "") (row_get r COL_REPORT "")
           (row_get r COL_KEYWORD "") (row_get r COL_FULLKEY "")).
Proof.
  intros ([a Ha] & [b Hb] & [c Hc] & [d Hd]).
  unfold match_block, row_get. rewrite Ha, Hb, Hc, Hd.
  by rewrite (row_item_present r _ a Ha), (row_item_present r _ b Hb),
    (row_item_present r _ c Hc), (row_item_present r _ d Hd).
Qed.

Lemma answer_text_printable r :
  printable r →
  answer_text r
  = inr (row_get r COL_COMMON "" +:+ " | " +:+ row_get r COL_REPORT "").
Proof.
  intros ([a Ha] & [b Hb] & _).
  unfold answer_text, row_get. rewrite Ha, Hb.
  by rewrite (row_item_present r _ a Ha), (row_item_present r _ b Hb).
Qed.

Lemma show_matches_printable rank best out :
  (∀ x, x ∈ best → printable x.2) →
  show_matches rank best out
  = (out ++ (Markdown <$> imap (λ i (x : entry),
               block_text (rank + i) (row_get x.2 COL_COMMON "")
                 (row_get x.2 COL_REPORT "") (row_get x.2 COL_KEYWORD "")
                 (row_get x.2 COL_FULLKEY "")) best), None).
Proof.
  revert rank out. induction best as [|[[s why] r] best IH]; intros rank out Hp.
  - simpl. by rewrite app_nil_r.
  - cbn [show_matches]. rewrite match_block_printable by (apply (Hp (s, why, r)); constructor).
    rewrite IH by (intros x Hx; apply Hp; by constructor).
    rewrite imap_cons, fmap_cons, <- app_assoc. cbn [app]. rewrite Nat.add_0_r.
    cbn [fst snd]. do 4 f_equal. apply imap_ext. intros i x _. simpl. f_equal. lia.
Qed.

Lemma frame_printable df r :
  frame_ok df → (∀ c, c ∈ required_cols → c ∈ df_columns df) →
  r ∈ df_rows df → printable r.
Proof.
  intros Hok Hcols Hr.
  split_and!; apply (Hok r _ Hr), Hcols; unfold required_cols;
    repeat (first [by apply list_elem_of_here | apply list_elem_of_further]).
Qed.

End Page.

(** X17. With a sheet uploaded, the run ends at [st.stop()] exactly when a
    required column is missing; the page then shows one error naming the
    missing columns in the order of [required_cols], and no result. *)
Theorem app_stops_on_missing_columns (df : dataframe) (q : string) (top_k : Z) :
  let res := app (Some df) q top_k in
  (res.2 = Stopped ↔ ∃ c, c ∈ required_cols ∧ c ∉ df_columns df)
  ∧ (res.2 = Stopped →
     res.1 = page_head
             ++ [Error ("Missing columns: "
                        +:+ Str.join ", " (filter (λ c, c ∉ df_columns df)
                                             required_cols))]).
Proof.
  intros res. subst res. unfold app.
  destruct (bool_decide (missing_cols df = [])) eqn:E; simpl.
  - apply bool_decide_eq_true in E.
    assert (Hno : ¬ ∃ c, c ∈ required_cols ∧ c ∉ df_columns df).
    { intros (c & Hc & Hnot). by apply Hnot, (proj1 (missing_cols_nil df) E). }
    destruct (Str.is_empty q); simpl.
    + split; [split; [done|by intros ?%Hno]|done].
    + pose proof (results_not_stopped q (df_rows df) top_k page_head).
      split; [split; [done|by intros ?%Hno]|done].
  - apply bool_decide_eq_false in E. split; [|done]. split; [|done]. intros _.
    destruct (missing_cols df) as [|c l] eqn:Em; [done|].
    assert (Hc : c ∈ missing_cols df) by (rewrite Em; constructor).
    apply list_elem_of_filter in Hc as [Hnot Hc]. by exists c.
Qed.

(** X18. On a sheet that has all required columns but no row, a question
    makes the run end in [IndexError] at [best[0]], whatever [top_k] is,
    after the two subheaders have been shown. *)
Theorem app_crashes_on_empty_sheet (df : dataframe) (q : string) (top_k : Z) :
  (∀ c, c ∈ required_cols → c ∈ df_columns df) →
  df_rows df = [] → q ≠ "" →
  app (Some df) q top_k
  = (page_head ++ [Subheader "Top matches"; Subheader "Best answer (copy)"],
     Crashed (Uncaught IndexError)).
Proof.
  intros Hcols%missing_cols_nil Hrows Hq. unfold app.
  rewrite Hcols, Hrows. simpl. destruct q as [|c q]; [done|]. simpl.
  unfold results, rank, slice_to.
  assert (scored (String c q) [] = []) as -> by done.
  rewrite !take_nil. by destruct (decide (top_k < 0)).
Qed.

Lemma app_crashes_on_empty_sheet_witness :
  let df := {| df_columns := required_cols; df_rows := [] |} in
  df_rows df = [] ∧ demo_query ≠ ""
  ∧ (app (Some df) demo_query 3).2 = Crashed (Uncaught IndexError).
Proof.
  intros df. split_and!; [done|done|].
  rewrite (app_crashes_on_empty_sheet df demo_query 3); done.
Defined.

(** X19. On a well-formed sheet with all required columns and at least one
    row, a question and a [top_k] of 1 or more end the run normally: the page
    shows the matches, numbered from 1, [min(top_k, number of rows)] of them,
    in ranking order, and then as best answer the common name and report of
    the first entry of the ranking. *)
Theorem app_shows_results (df : dataframe) (q : string) (top_k : Z) :
  frame_ok df →
  (∀ c, c ∈ required_cols → c ∈ df_columns df) →
  df_rows df ≠ [] → q ≠ "" → 1 ≤ top_k →
  ∃ top rest,
    scored q (df_rows df) = top :: rest
    ∧ app (Some df) q top_k
      = (page_head ++ [Subheader "Top matches"]
           ++ (Markdown <$> imap (λ i (x : entry),
                 block_text (1 + i) (row_get x.2 COL_COMMON "")
                   (row_get x.2 COL_REPORT "") (row_get x.2 COL_KEYWORD "")
                   (row_get x.2 COL_FULLKEY ""))
                 (take (Z.to_nat top_k) (top :: rest)))
           ++ [Subheader "Best answer (copy)";
               Code (row_get top.2 COL_COMMON "" +:+ " | "
                     +:+ row_get top.2 COL_REPORT "")],
         Finished)
    ∧ length (take (Z.to_nat top_k) (top :: rest))
      = Nat.min (Z.to_nat top_k) (length (df_rows df)).
Proof.
  intros Hok Hcols Hrows Hq Hk.
  destruct (scored q (df_rows df)) as [|top rest] eqn:E.
  { apply (f_equal length) in E. rewrite scored_length in E.
    by destruct (df_rows df). }
  exists top, rest. split; [done|].
  assert (Hprint : ∀ x, x ∈ top :: rest → printable x.2).
  { intros x Hx. rewrite <- E in Hx. apply scored_entry in Hx as [Hx _].
    by apply (frame_printable df). }
  split.
  - unfold app. apply missing_cols_nil in Hcols. rewrite Hcols. simpl.
    destruct q as [|c q]; [done|]. simpl.
    unfold results, rank, slice_to. rewrite decide_False by lia. rewrite E.
    rewrite show_matches_printable
      by (intros x Hx%elem_of_take_elem; by apply Hprint).
    destruct (Z.to_nat top_k) as [|n] eqn:En; [lia|].
    cbn [take best_row]. rewrite answer_text_printable
      by (apply (Hprint top); constructor).
    by rewrite <- !app_assoc.
  - rewrite length_take, <- E, scored_length. done.
Qed.

Lemma app_shows_results_witness :
  demo_frame.(df_rows) ≠ [] ∧ demo_query ≠ "" ∧ 1 ≤ 2
  ∧ app (Some demo_frame) demo_query 2
    = (page_head
         ++ [Subheader "Top matches";
             Markdown (block_text 1 "Agency Delivery Zone" "Agency/Card"
                         "Delivery Zone Code" "Agency.DeliveryZoneCode");
             Markdown (block_text 2 "Vendor Name" "Vendor List" "Name"
                         "Vendor.Name");
             Subheader "Best answer (copy)";
             Code "Agency Delivery Zone | Agency/Card"],
       Finished).
Proof.
  assert (Hok : frame_ok demo_frame).
  { intros r c Hr Hc. unfold demo_frame, required_cols in *. simpl in *.
    repeat (apply elem_of_cons in Hr as [->|Hr]);
      [..|by apply elem_of_nil in Hr];
      repeat (apply elem_of_cons in Hc as [->|Hc]);
      try (by apply elem_of_nil in Hc); vm_compute; eauto. }
  split_and!; [done|done|lia|].
  destruct (app_shows_results demo_frame demo_query 2 Hok)
    as (top & rest & _ & _ & _); [done|done|done|lia|].
  vm_compute. reflexivity.
Defined.

(** ** The slider and [top_k] *)

Section TopK.

Implicit Types (d : dataframe) (q : string) (top_k : Z) (r : row)
  (out : list widget) (best : list entry).








End TopK.



